(** * image-minimizer-webpack-plugin: [src/utils.js]

    A shallow embedding of the utility layer of the plugin and the
    properties its specification states about it:

    - [replaceFileExtension], [isAbsoluteURL]: filename helpers;
    - [fileTypeFromBuffer]: the byte-signature sniffer;
    - [throttleAll]: the bounded task scheduler, as a transition system
      over the closure state of the promise executor;
    - the imagemin, squoosh, sharp and svgo adapters, as computations in a
      state-and-exception monad over a store of JS arrays, so that
      [original.errors.push(..)] and [[...original.warnings]] keep their
      aliasing behaviour.

    JS strings are modelled by [string] (filenames and messages), a
    [Uint8Array] by [list byte], JS objects used as dictionaries by
    [gmap string _]. *)

From Stdlib Require Import ZArith NArith Strings.Byte Strings.Ascii Strings.String.
From stdpp Require Import gmap strings list fin_maps.

Open Scope string_scope.
Open Scope list_scope.
Open Scope stdpp_scope.

(* ===================================================================== *)
(** * Part I: the embedding                                               *)
(* ===================================================================== *)

(** ** JS string and array primitives used by the file *)

(** [s.slice(n)] for [0 <= n]. *)
Definition slice_from (n : nat) (s : string) : string :=
  substring n (String.length s - n) s.

(** [s.slice(0, n)] for [0 <= n]. *)
Definition slice_to (n : nat) (s : string) : string := substring 0 n s.



(** [a.findIndex((el, i) => p el i)]: first index whose callback is truthy,
    [-1] when there is none. *)
Fixpoint findIndex_from {A} (p : A -> nat -> bool) (a : list A) (i : nat) : Z :=
  match a with
  | [] => (-1)%Z
  | el :: rest => if p el i then Z.of_nat i else findIndex_from p rest (S i)
  end.

Definition findIndex {A} (p : A -> nat -> bool) (a : list A) : Z :=
  findIndex_from p a 0.

(** Relative index of [TypedArray.prototype.subarray]: a negative index
    counts from the end, and both ends are clamped to [0 .. len]. *)
Definition relative_index (len k : Z) : Z :=
  if (k <? 0)%Z then Z.max (len + k) 0 else Z.min k len.

(** [a.subarray(begin, end)] (a view; nothing here writes through it). *)
Definition subarray {A} (a : list A) (begin end_ : Z) : list A :=
  let len := Z.of_nat (length a) in
  let b := relative_index len begin in
  let e := relative_index len end_ in
  take (Z.to_nat (Z.max (e - b) 0)) (drop (Z.to_nat b) a).

(** ** [replaceFileExtension] *)

(** The backward loop of [replaceFileExtension]: [n] is [i + 1], the number
    of characters still to visit; the result is [dotIndex]. *)
Fixpoint findDotIndex (filename : string) (n : nat) : Z :=
  match n with
  | O => (-1)%Z
  | S i =>
      match String.get i filename with
      | Some char =>
          if Ascii.eqb char "." then Z.of_nat i
          else if Ascii.eqb char "/" || Ascii.eqb char "\" then (-1)%Z
          else findDotIndex filename i
      | None => findDotIndex filename i
      end
  end.

Definition replaceFileExtension (filename ext : string) : string :=
  let dotIndex := findDotIndex filename (String.length filename) in
  if (dotIndex =? -1)%Z then filename
  else slice_to (Z.to_nat dotIndex) filename +:+ "." +:+ ext.

(** ** [isAbsoluteURL] *)

Definition is_alpha (c : ascii) : bool :=
  let n := nat_of_ascii c in
  ((65 <=? n)%nat && (n <=? 90)%nat) || ((97 <=? n)%nat && (n <=? 122)%nat).

Definition is_digit (c : ascii) : bool :=
  let n := nat_of_ascii c in (48 <=? n)%nat && (n <=? 57)%nat.

(** The class [[a-zA-Z\d+\-.]]. *)
Definition is_scheme_char (c : ascii) : bool :=
  is_alpha c || is_digit c || Ascii.eqb c "+" || Ascii.eqb c "-" || Ascii.eqb c ".".

(** [[a-zA-Z\d+\-.]*?:] matched at the start of [s]: the colon is not in
    the class, so the match runs to the first colon or fails. *)
Fixpoint scheme_rest (s : string) : bool :=
  match s with
  | EmptyString => false
  | String c r =>
      if Ascii.eqb c ":" then true
      else if is_scheme_char c then scheme_rest r
      else false
  end.

(** [/^[a-zA-Z][a-zA-Z\d+\-.]*?:/.test(url)] *)
Definition ABSOLUTE_URL_REGEX (url : string) : bool :=
  match url with
  | String c r => is_alpha c && scheme_rest r
  | EmptyString => false
  end.

(** [/^[a-zA-Z]:\\/.test(url)] *)
Definition WINDOWS_PATH_REGEX (url : string) : bool :=
  match url with
  | String c (String ":" (String "\" _)) => is_alpha c
  | _ => false
  end.

(** [/^\//.test(url)] *)
Definition POSIX_PATH_REGEX (url : string) : bool :=
  match url with
  | String "/" _ => true
  | _ => false
  end.

Definition isAbsoluteURL (url : string) : bool :=
  WINDOWS_PATH_REGEX url || POSIX_PATH_REGEX url || ABSOLUTE_URL_REGEX url.

(** ** [fileTypeFromBuffer] *)

Record FileType := mkFileType { ext : string; mime : string }.

(** [buffer[i] === b]; reading past the end gives [undefined], which is
    never equal to a byte. *)
Definition byte_is (buffer : list byte) (i : nat) (b : byte) : bool :=
  match buffer !! i with
  | Some x => Byte.eqb x b
  | None => false
  end.

(** [mask[i] & buffer[j]]: an [undefined] operand of [&] counts as [0]. *)
Definition masked (mask buffer : list byte) (i j : nat) : N :=
  N.land (from_option Byte.to_N 0%N (mask !! i))
         (from_option Byte.to_N 0%N (buffer !! j)).

Record CheckOptions := mkCheckOptions { offset : nat; mask : option (list byte) }.

(** The loop of [check]: [i] is the index of the head of [header]. *)
Fixpoint check_loop (buffer : list byte) (options : CheckOptions)
    (header : list byte) (i : nat) : bool :=
  match header with
  | [] => true
  | h :: rest =>
      let mismatch :=
        match mask options with
        | Some m => negb (N.eqb (Byte.to_N h) (masked m buffer i (i + offset options)))
        | None => negb (byte_is buffer (i + offset options) h)
        end in
      if mismatch then false else check_loop buffer options rest (S i)
  end.

Definition check (buffer : list byte) (header : list byte) (options : CheckOptions) : bool :=
  check_loop buffer options header 0.

(** [[...string].map((character) => character.charCodeAt(0))] *)
Definition stringToBytes (s : string) : list byte := list_byte_of_string s.

(** [String.fromCodePoint(...array.slice(start, end))] for [0 <= start <= end]. *)
Definition uint8ArrayUtf8ByteString (array : list byte) (start end_ : nat) : string :=
  string_of_list_byte (take (end_ - start) (drop start array)).

(** [s.replace(pattern, by)] with a one-character string pattern: only the
    first occurrence is replaced. *)
Fixpoint replace_first (pattern by_ : ascii) (s : string) : string :=
  match s with
  | EmptyString => EmptyString
  | String c r =>
      if Ascii.eqb c pattern then String by_ r
      else String c (replace_first pattern by_ r)
  end.

(** White space and line terminators of ECMAScript among the code points
    below 256: TAB, LF, VT, FF, CR, SP and NBSP. *)
Definition is_js_space (c : ascii) : bool :=
  let n := nat_of_ascii c in
  ((9 <=? n)%nat && (n <=? 13)%nat) || (n =? 32)%nat || (n =? 160)%nat.

Fixpoint trimStart (s : string) : string :=
  match s with
  | String c r => if is_js_space c then trimStart r else s
  | EmptyString => EmptyString
  end.

Fixpoint trimEnd (s : string) : string :=
  match s with
  | EmptyString => EmptyString
  | String c r =>
      match trimEnd r with
      | EmptyString => if is_js_space c then EmptyString else String c EmptyString
      | r' => String c r'
      end
  end.

Definition trim (s : string) : string := trimEnd (trimStart s).

(** The 4-byte chunk type tests of the APNG scan. *)
Definition is_IDAT_at (buffer : list byte) (i : nat) : bool :=
  byte_is buffer i x49 && byte_is buffer (i + 1) x44 &&
  byte_is buffer (i + 2) x41 && byte_is buffer (i + 3) x54.

Definition is_acTL_at (sliced : list byte) (i : nat) : bool :=
  byte_is sliced i x61 && byte_is sliced (i + 1) x63 &&
  byte_is sliced (i + 2) x54 && byte_is sliced (i + 3) x4c.

Definition startIndex : nat := 33.

Definition firstImageDataChunkIndex (buffer : list byte) : Z :=
  findIndex (fun _ i => (startIndex <=? i)%nat && is_IDAT_at buffer i) buffer.

(** The body of the PNG branch. *)
Definition png_or_apng (buffer : list byte) : FileType :=
  let sliced := subarray buffer (Z.of_nat startIndex) (firstImageDataChunkIndex buffer) in
  if (0 <=? findIndex (fun _ i => is_acTL_at sliced i) sliced)%Z
  then mkFileType "apng" "image/apng"
  else mkFileType "png" "image/png".

(** The [switch (brandMajor)] of the [ftyp] branch; [None] is the fall
    through to the rules below it. *)
Definition ftyp_brand (brandMajor : string) : option FileType :=
  if String.eqb brandMajor "avif" then Some (mkFileType "avif" "image/avif")
  else if String.eqb brandMajor "mif1" then Some (mkFileType "heic" "image/heif")
  else if String.eqb brandMajor "msf1" then Some (mkFileType "heic" "image/heif-sequence")
  else if String.eqb brandMajor "heic" || String.eqb brandMajor "heix"
  then Some (mkFileType "heic" "image/heic")
  else if String.eqb brandMajor "hevc" || String.eqb brandMajor "hevx"
  then Some (mkFileType "heic" "image/heic-sequence")
  else None.

(** The cascade of signature rules, for a buffer of length above 1. *)
Definition sniff (buffer : list byte) : option FileType :=
  let check_at header off := check buffer header (mkCheckOptions off None) in
  let check header := check_at header 0 in
  let checkString_at header off := check_at (stringToBytes header) off in
  let checkString header := check (stringToBytes header) in
  if check [xff; xd8; xff] then Some (mkFileType "jpg" "image/jpeg")
  else if check [x89; x50; x4e; x47; x0d; x0a; x1a; x0a] then Some (png_or_apng buffer)
  else if check [x47; x49; x46] then Some (mkFileType "gif" "image/gif")
  else if check_at [x57; x45; x42; x50] 8 then Some (mkFileType "webp" "image/webp")
  else if check [x46; x4c; x49; x46] then Some (mkFileType "flif" "image/flif")
  else if (check [x49; x49; x2a; x00] || check [x4d; x4d; x00; x2a]) &&
          check_at [x43; x52] 8
  then Some (mkFileType "cr2" "image/x-canon-cr2")
  else if check [x49; x49; x52; x4f; x08; x00; x00; x00; x18]
  then Some (mkFileType "orf" "image/x-olympus-orf")
  else if check [x49; x49; x2a; x00] &&
          (check_at [x10; xfb; x86; x01] 4 || check_at [x08; x00; x00; x00] 4) &&
          check_at [x00; xfe; x00; x04; x00; x01; x00; x00; x00; x01; x00; x00;
                    x00; x03; x01] 9
  then Some (mkFileType "arw" "image/x-sony-arw")
  else if check [x49; x49; x2a; x00; x08; x00; x00; x00] &&
          (check_at [x2d; x00; xfe; x00] 8 || check_at [x27; x00; xfe; x00] 8)
  then Some (mkFileType "dng" "image/x-adobe-dng")
  else if check [x49; x49; x2a; x00] && check_at [x1c; x00; xfe; x00] 8
  then Some (mkFileType "nef" "image/x-nikon-nef")
  else if check [x49; x49; x55; x00; x18; x00; x00; x00; x88; xe7; x74; xd8]
  then Some (mkFileType "rw2" "image/x-panasonic-rw2")
  else if checkString "FUJIFILMCCD-RAW" then Some (mkFileType "raf" "image/x-fujifilm-raf")
  else if check [x49; x49; x2a; x00] || check [x4d; x4d; x00; x2a]
  then Some (mkFileType "tif" "image/tiff")
  else if check [x42; x4d] then Some (mkFileType "bmp" "image/bmp")
  else if check [x49; x49; xbc] then Some (mkFileType "jxr" "image/vnd.ms-photo")
  else if check [x38; x42; x50; x53] then Some (mkFileType "psd" "image/vnd.adobe.photoshop")
  else
    let after_ftyp :=
      if check [x00; x00; x01; x00] then Some (mkFileType "ico" "image/x-icon")
      else if check [x00; x00; x02; x00] then Some (mkFileType "cur" "image/x-icon")
      else if check [x42; x50; x47; xfb] then Some (mkFileType "bpg" "image/bpg")
      else
        let after_jp2 :=
          if check [xff; x0a] ||
             check [x00; x00; x00; x0c; x4a; x58; x4c; x20; x0d; x0a; x87; x0a]
          then Some (mkFileType "jxl" "image/jxl")
          else if check [xab; x4b; x54; x58; x20; x31; x31; xbb; x0d; x0a; x1a; x0a]
          then Some (mkFileType "ktx" "image/ktx")
          else None in
        if check [x00; x00; x00; x0c; x6a; x50; x20; x20; x0d; x0a; x87; x0a] then
          (* JPEG-2000 family *)
          if check_at [x6a; x70; x32; x20] 20 then Some (mkFileType "jp2" "image/jp2")
          else if check_at [x6a; x70; x78; x20] 20 then Some (mkFileType "jpx" "image/jpx")
          else if check_at [x6a; x70; x6d; x20] 20 then Some (mkFileType "jpm" "image/jpm")
          else if check_at [x6d; x6a; x70; x32] 20 then Some (mkFileType "mj2" "image/mj2")
          else after_jp2
        else after_jp2 in
    if checkString_at "ftyp" 4 &&
       negb (N.eqb (N.land (from_option Byte.to_N 0%N (buffer !! 8)) 96) 0)
    then
      let brandMajor :=
        trim (replace_first zero " " (uint8ArrayUtf8ByteString buffer 8 12)) in
      match ftyp_brand brandMajor with
      | Some t => Some t
      | None => after_ftyp
      end
    else after_ftyp.

(** What a caller can pass as [input]. *)
Inductive SnifferInput :=
  | Uint8Array (bytes : list byte)
  | ArrayBuffer (bytes : list byte)
  | NodeBuffer (bytes : list byte)
  | NotABuffer.

(** A JS function either throws or returns. *)
Inductive Completion (A : Type) :=
  | Throw (error : string)
  | Return (value : A).
Arguments Throw {A} error.
Arguments Return {A} value.

Definition fileTypeFromBuffer (input : SnifferInput) : Completion (option FileType) :=
  match input with
  | NotABuffer =>
      Throw "TypeError: Expected the `input` argument to be of type `Uint8Array` or `Buffer` or `ArrayBuffer`"
  | Uint8Array buffer | ArrayBuffer buffer | NodeBuffer buffer =>
      if negb (1 <? length buffer)%nat then Return None
      else Return (sniff buffer)
  end.

(** ** [throttleAll]

    A task is a function returning a promise.  In one run of the scheduler
    the promise of task [i] settles at most once, with an [Outcome]; when
    it settles is up to the event loop.  The state is the state of the
    closure of the promise executor ([entries], [result], [tasksFulfilled]),
    the state of the returned promise, and the tasks whose promise is not
    settled yet.  [history] is a history variable: it records each call
    [task()] and each settlement, in order, and no transition reads it. *)

Section Throttle.
Context {T E : Type}.

Inductive Outcome :=
  | Fulfils (value : T)
  | Rejects (reason : E).

(** The returned promise; [Resolved] is "fulfilled with the array
    [result]", which the promise holds by reference. *)
Inductive PromiseState :=
  | Pending
  | Resolved
  | Rejected (reason : E).

Inductive Event :=
  | Started (index : nat)
  | Fulfilled (index : nat)
  | Failed (index : nat).

Record Scheduler := mkScheduler {
  entries : nat;                (* position of the iterator [tasks.entries()] *)
  result : list (option T);     (* the array [result]; [None] is a hole *)
  tasksFulfilled : nat;
  promise : PromiseState;
  inflight : list nat;          (* started, promise not settled yet *)
  history : list Event;
}.

(** [a[i] = v] on a JS array: writing at or past [a.length] extends the
    array, leaving holes in between. *)
Definition array_set (a : list (option T)) (i : nat) (v : T) : list (option T) :=
  if (i <? length a)%nat then <[i := Some v]> a
  else a ++ replicate (i - length a) None ++ [Some v].

(** [resolve(result)] and [reject(reason)]: a promise settles once. *)
Definition resolve (st : Scheduler) : Scheduler :=
  match promise st with
  | Pending =>
      mkScheduler (entries st) (result st) (tasksFulfilled st) Resolved
                  (inflight st) (history st)
  | _ => st
  end.

Definition reject (reason : E) (st : Scheduler) : Scheduler :=
  match promise st with
  | Pending =>
      mkScheduler (entries st) (result st) (tasksFulfilled st) (Rejected reason)
                  (inflight st) (history st)
  | _ => st
  end.

Definition next (tasks : list Outcome) (st : Scheduler) : Scheduler :=
  match tasks !! entries st with
  | None =>
      (* done *)
      if (tasksFulfilled st =? length tasks)%nat then resolve st else st
  | Some _ =>
      (* [task().then(onFulfilled, reject)] with [index = entries st] *)
      mkScheduler (S (entries st)) (result st) (tasksFulfilled st) (promise st)
                  (inflight st ++ [entries st])
                  (history st ++ [Started (entries st)])
  end.

Definition onFulfilled (tasks : list Outcome) (index : nat) (taskResult : T)
    (st : Scheduler) : Scheduler :=
  next tasks
    (mkScheduler (entries st) (array_set (result st) index taskResult)
                 (tasksFulfilled st + 1) (promise st) (inflight st) (history st)).

(** The promise of the in-flight task [index] settles and its reaction
    runs; [None] when that task is not in flight. *)
Definition settle (tasks : list Outcome) (index : nat) (st : Scheduler)
    : option Scheduler :=
  if bool_decide (index ∈ inflight st) then
    let others := filter (λ j, j ≠ index) (inflight st) in
    match tasks !! index with
    | Some (Fulfils v) =>
        Some (onFulfilled tasks index v
                (mkScheduler (entries st) (result st) (tasksFulfilled st) (promise st)
                             others (history st ++ [Fulfilled index])))
    | Some (Rejects e) =>
        Some (reject e
                (mkScheduler (entries st) (result st) (tasksFulfilled st) (promise st)
                             others (history st ++ [Failed index])))
    | None => None
    end
  else None.

(** A run of the event loop: the tasks settle in the order [schedule]. *)
Fixpoint run (tasks : list Outcome) (schedule : list nat) (st : Scheduler)
    : option Scheduler :=
  match schedule with
  | [] => Some st
  | index :: rest =>
      match settle tasks index st with
      | Some st' => run tasks rest st'
      | None => None
      end
  end.

(** The state in which the executor starts. *)
Definition executor_start : Scheduler := mkScheduler 0 [] 0 Pending [] [].

(** The argument [limit]: [Number.isInteger] holds of [IntegerNumber]
    only (not of a fraction, [NaN] or an infinity). *)
Inductive JsNumber :=
  | IntegerNumber (z : Z)
  | OtherNumber.

(** [throttleAll(limit, tasks)], up to the end of the executor: either
    the [TypeError] for [limit], or the state after the [limit] calls of
    [next()].  (The typed list [tasks] is an array of functions.) *)
Definition throttleAll (limit : JsNumber) (tasks : list Outcome)
    : Completion Scheduler :=
  match limit with
  | OtherNumber => Throw "TypeError: Expected 'limit' to be a finite number > 0"
  | IntegerNumber z =>
      if (z <? 1)%Z then Throw "TypeError: Expected 'limit' to be a finite number > 0"
      else Return (Nat.iter (Z.to_nat z) (next tasks) executor_start)
  end.

(** The states [throttleAll limit tasks] can be in between two events. *)
Definition reachable (limit : Z) (tasks : list Outcome) (st : Scheduler) : Prop :=
  ∃ st0 schedule,
    throttleAll (IntegerNumber limit) tasks = Return st0 ∧
    run tasks schedule st0 = Some st.

(** The failure of the first task that failed, read off the history. *)
Fixpoint first_failure (tasks : list Outcome) (h : list Event) : option E :=
  match h with
  | [] => None
  | Failed i :: rest =>
      match tasks !! i with
      | Some (Rejects e) => Some e
      | _ => first_failure tasks rest
      end
  | _ :: rest => first_failure tasks rest
  end.

Definition is_failed (ev : Event) : bool :=
  match ev with
  | Failed _ => true
  | _ => false
  end.

(** The number of tasks that have failed so far. *)
Definition failures (h : list Event) : nat := length (List.filter is_failed h).

(** The history of a strictly sequential run of the first [k] tasks. *)
Definition settled_event (tasks : list Outcome) (i : nat) : Event :=
  match tasks !! i with
  | Some (Rejects _) => Failed i
  | _ => Fulfilled i
  end.

Definition sequential_history (tasks : list Outcome) (k : nat) : list Event :=
  flat_map (λ i, [Started i; settled_event tasks i]) (seq 0 k).
(** What holds of the scheduler between two events; [L] is [limit]. *)
Record invariant (L : nat) (tasks : list Outcome) (st : Scheduler) : Prop := mkInvariant {
  inv_entries : entries st <= length tasks;
  inv_nodup : NoDup (inflight st);
  inv_started : forall i, i ∈ inflight st -> i < entries st;
  inv_count :
    length (inflight st) + tasksFulfilled st + failures (history st) = entries st;
  inv_bound : length (inflight st) + failures (history st) <= L;
  inv_saturated :
    entries st < length tasks ->
    length (inflight st) + failures (history st) = L;
  inv_failed : first_failure tasks (history st) = None -> failures (history st) = 0;
  inv_promise :
    promise st =
    match first_failure tasks (history st) with
    | Some e => Rejected e
    | None => if (tasksFulfilled st =? length tasks)%nat then Resolved else Pending
    end;
  inv_length : length (result st) <= entries st;
  inv_result :
    forall i v, i < entries st -> i ∉ inflight st ->
                tasks !! i = Some (Fulfils v) -> result st !! i = Some (Some v);
  inv_sequential :
    L = 1 ->
    (inflight st = [] /\ history st = sequential_history tasks (entries st)) \/
    (exists k, entries st = S k /\ inflight st = [k] /\
               history st = sequential_history tasks k ++ [Started k]);
}.
End Throttle.

Arguments Outcome : clear implicits.
Arguments PromiseState : clear implicits.
Arguments Scheduler : clear implicits.

(** ** The adapters: data model

    An adapter is an [async] function; its awaits are run to completion
    here, one adapter call at a time.  The arrays [warnings] and [errors]
    of a work item are JS objects held by reference: the work item stores
    their addresses in the store [arrays] of the [World]. *)

(** The values an entry of [info] (an [AssetInfo]) takes in this file. *)
Inductive InfoValue :=
  | VBool (b : bool)
  | VNumber (z : Z)
  | VString (s : string)
  | VStrings (l : list string).

Record WorkerResult := mkWorkerResult {
  filename : string;
  data : list byte;
  warnings : nat;                 (* address of the array of warnings *)
  errors : nat;                   (* address of the array of errors *)
  info : gmap string InfoValue;   (* a missing [info] is the empty object *)
}.

Record World := mkWorld {
  arrays : list (list string);    (* arrays of [Error]s, by their message *)
  pool : bool;                    (* the module variable [pool] holds a pool *)
  open_pools : nat;               (* [ImagePool]s created and not closed *)
}.

(** A computation that reads and writes the world and throws or returns. *)
Definition M (A : Type) : Type := World -> Completion A * World.

Definition ret {A} (a : A) : M A := fun w => (Return a, w).

Definition throw {A} (error : string) : M A := fun w => (Throw error, w).

Definition bind {A B} (m : M A) (k : A -> M B) : M B :=
  fun w =>
    match m w with
    | (Return a, w') => k a w'
    | (Throw error, w') => (Throw error, w')
    end.

Notation "'let*' x ':=' m 'in' k" := (bind m (fun x => k))
  (at level 10, x name, m at level 100, k at level 200).

Definition lift {A} (c : Completion A) : M A := fun w => (c, w).

(** [array.push(x)] *)
Definition push (array : nat) (x : string) : M unit :=
  fun w =>
    match arrays w !! array with
    | Some a =>
        (Return tt, mkWorld (<[array := a ++ [x]]> (arrays w)) (pool w) (open_pools w))
    | None => (Throw "TypeError: Cannot read properties of undefined (reading 'push')", w)
    end.

(** [[...array]]: a new array with the same elements. *)
Definition spread_copy (array : nat) : M nat :=
  fun w =>
    match arrays w !! array with
    | Some a =>
        (Return (length (arrays w)), mkWorld (arrays w ++ [a]) (pool w) (open_pools w))
    | None => (Throw "TypeError: undefined is not iterable", w)
    end.

(** [squooshImagePoolCreate()] and [imagePool.close()], as far as the
    count of open pools goes. *)
Definition squooshImagePoolCreate : M unit :=
  fun w => (Return tt, mkWorld (arrays w) (pool w) (S (open_pools w))).

Definition imagePool_close : M unit :=
  fun w => (Return tt, mkWorld (arrays w) (pool w) (pred (open_pools w))).

Definition get_pool : M bool := fun w => (Return (pool w), w).

Definition set_pool (b : bool) : M unit :=
  fun w => (Return tt, mkWorld (arrays w) b (open_pools w)).

Definition squooshImagePoolSetup : M unit :=
  let* isPool := get_pool in
  if negb isPool then
    let* _ := squooshImagePoolCreate in
    set_pool true
  else ret tt.

Definition squooshImagePoolTeardown : M unit :=
  let* isPool := get_pool in
  if isPool then
    let* _ := imagePool_close in
    set_pool false
  else ret tt.

(** [path.extname] and [String.prototype.toLowerCase] belong to the host
    (Node picks the POSIX or the Windows [path] by platform). *)
Record Host := mkHost {
  path_extname : string -> string;
  toLowerCase : string -> string;
}.

(** [path.extname(original.filename).slice(1).toLowerCase()] *)
Definition input_ext (host : Host) (original : WorkerResult) : string :=
  toLowerCase host (slice_from 1 (path_extname host (filename original))).

(** [`Error with '${original.filename}': ${originalError.message}`] *)
Definition error_with (original : WorkerResult) (message : string) : string :=
  "Error with '" +:+ filename original +:+ "': " +:+ message.

Definition chars_of (s : string) : list string :=
  map (fun c => String c EmptyString) (list_ascii_of_string s).

(** [[...(original.info?.[key] ?? [])]]: a boolean or a number is not
    iterable. *)
Definition processedBy_of (i : gmap string InfoValue) (key : string)
    : Completion (list string) :=
  match i !! key with
  | None => Return []
  | Some (VStrings l) => Return l
  | Some (VString s) => Return (chars_of s)
  | Some (VBool _) | Some (VNumber _) => Throw "TypeError: value is not iterable"
  end.

(** [fileTypeFromBuffer(result) || {}], its [ext]. *)
Definition sniffed_ext (result : list byte) : Completion (option string) :=
  match fileTypeFromBuffer (Uint8Array result) with
  | Throw error => Throw error
  | Return t => Return (ext <$> t)
  end.

(** [extOutput && extInput !== extOutput] *)
Definition ext_differs (extOutput : option string) (extInput : string) : bool :=
  match extOutput with
  | Some e => negb (String.eqb e EmptyString) && negb (String.eqb extInput e)
  | None => false
  end.

(** ** imagemin *)

(** An entry of [imageminConfig.plugins]: a name, a pair [[name, options]],
    or anything else (by its JSON text). *)
Inductive PluginSpec :=
  | PluginName (name : string)
  | PluginPair (name : string) (options : option string)
  | PluginOther (json : string).

Record ImageminOptions := mkImageminOptions {
  plugins : option (list PluginSpec);
}.

(** [import_default name options] is [(await import(name)).default(options)],
    [None] when that throws; [imagemin_buffer] is [imagemin.buffer], with
    the message of the error it throws on the left. *)
Record ImageminLib := mkImageminLib {
  Plugin : Type;
  import_default : string -> option string -> option Plugin;
  imagemin_buffer : list byte -> list Plugin -> string + list byte;
}.

Definition dq : string := String (ascii_of_nat 34) EmptyString.

Definition nl : string := String (ascii_of_nat 10) EmptyString.

Definition imagemin_prefixed (pluginName : string) : string :=
  if String.prefix "imagemin" pluginName then pluginName
  else "imagemin-" +:+ pluginName.

Definition unknown_plugin (pluginName : string) : string :=
  let pluginNameForError := imagemin_prefixed pluginName in
  "Unknown plugin: " +:+ pluginNameForError +:+ nl +:+ nl +:+
  "Did you forget to install the plugin?" +:+ nl +:+
  "You can install it with:" +:+ nl +:+ nl +:+
  "$ npm install " +:+ pluginNameForError +:+ " --save-dev" +:+ nl +:+
  "$ yarn add " +:+ pluginNameForError +:+ " --dev".

(** The loop over [imageminConfig.plugins]. *)
Fixpoint load_plugins (lib : ImageminLib) (specs : list PluginSpec)
    : Completion (list (Plugin lib)) :=
  match specs with
  | [] => Return []
  | PluginOther json :: _ =>
      Throw ("InvalidConfigError: Invalid plugin configuration '" +:+ json +:+
             "', plugin configuration should be 'string' or '[string, object]'" +:+ dq)
  | spec :: rest =>
      let pluginName :=
        match spec with PluginPair n _ | PluginName n => n | PluginOther _ => EmptyString end in
      let pluginOptions :=
        match spec with PluginPair _ o => o | _ => None end in
      let required :=
        match import_default lib (imagemin_prefixed pluginName) pluginOptions with
        | Some requiredPlugin => Some requiredPlugin
        | None => import_default lib pluginName pluginOptions
        end in
      match required with
      | None => Throw (unknown_plugin pluginName)
      | Some requiredPlugin =>
          match load_plugins lib rest with
          | Throw error => Throw error
          | Return loaded => Return (requiredPlugin :: loaded)
          end
      end
  end.

Definition imageminNormalizeConfig (lib : ImageminLib)
    (imageminConfig : option ImageminOptions) : Completion (list (Plugin lib)) :=
  match imageminConfig with
  | Some (mkImageminOptions (Some (spec :: specs))) => load_plugins lib (spec :: specs)
  | _ => Throw "No plugins found for `imagemin`, please read documentation"
  end.

Definition imageminGenerate (host : Host) (lib : ImageminLib)
    (original : WorkerResult) (minimizerOptions : option ImageminOptions)
    : M (option WorkerResult) :=
  let* minimizerOptionsNormalized :=
    lift (imageminNormalizeConfig lib
            (Some (default (mkImageminOptions None) minimizerOptions))) in
  match imagemin_buffer lib (data original) minimizerOptionsNormalized with
  | inl message =>
      let* _ := push (errors original) (error_with original message) in
      ret None
  | inr result =>
      let* extOutput := lift (sniffed_ext result) in
      let extInput := input_ext host original in
      let newFilename :=
        if ext_differs extOutput extInput
        then replaceFileExtension (filename original) (default EmptyString extOutput)
        else filename original in
      let* warnings' := spread_copy (warnings original) in
      let* errors' := spread_copy (errors original) in
      let* generatedBy := lift (processedBy_of (info original) "generatedBy") in
      ret (Some (mkWorkerResult newFilename result warnings' errors'
                   (<["generatedBy" := VStrings ("imagemin" :: generatedBy)]>
                      (<["generated" := VBool true]> (info original)))))
  end.

Definition imageminMinify_warning (extOutput : string) (original : WorkerResult) : string :=
  dq +:+ "imageminMinify" +:+ dq +:+ " function do not support generate to " +:+
  dq +:+ extOutput +:+ dq +:+ " from " +:+ dq +:+ filename original +:+ dq +:+
  ". Please use " +:+ dq +:+ "imageminGenerate" +:+ dq +:+ " function.".

Definition imageminMinify (host : Host) (lib : ImageminLib)
    (original : WorkerResult) (options : option ImageminOptions)
    : M (option WorkerResult) :=
  let* minimizerOptionsNormalized :=
    lift (imageminNormalizeConfig lib
            (Some (default (mkImageminOptions None) options))) in
  match imagemin_buffer lib (data original) minimizerOptionsNormalized with
  | inl message =>
      let* _ := push (errors original) (error_with original message) in
      ret None
  | inr result =>
      let* mismatch :=
        if negb (isAbsoluteURL (filename original)) then
          let extInput := input_ext host original in
          let* extOutput := lift (sniffed_ext result) in
          ret (if ext_differs extOutput extInput then extOutput else None)
        else ret None in
      match mismatch with
      | Some extOutput =>
          let* _ := push (warnings original) (imageminMinify_warning extOutput original) in
          ret None
      | None =>
          let* warnings' := spread_copy (warnings original) in
          let* errors' := spread_copy (errors original) in
          let* minimizedBy := lift (processedBy_of (info original) "minimizedBy") in
          ret (Some (mkWorkerResult (filename original) result warnings' errors'
                       (<["minimizedBy" := VStrings ("imagemin" :: minimizedBy)]>
                          (<["minimized" := VBool true]> (info original)))))
      end
  end.

(** An external call that is awaited outside any [try]: what it throws
    propagates. *)
Definition call {A} (r : string + A) : M A :=
  match r with
  | inl message => throw message
  | inr a => ret a
  end.

(** ** squoosh *)

(** An entry of the options other than [encodeOptions]: its [enabled]
    property and the rest of it (as text). *)
Record PreprocValue := mkPreprocValue {
  pv_enabled : option bool;
  pv_rest : string;
}.

(** [minifyOptions]: [encodeOptions] maps a codec to its options (as
    text).  The entry [encodeOptions] itself never passes the filter on
    [squoosh.preprocessors], which has no such key, so [Object.entries]
    is taken over [squoosh_preprocess]. *)
Record SquooshOptions := mkSquooshOptions {
  squoosh_preprocess : gmap string PreprocValue;
  squoosh_encodeOptions : option (gmap string string);
}.

(** The value an entry of [image.encodedWith] resolves to. *)
Record Encoded := mkEncoded { binary : list byte; extension : string }.

Record SquooshLib := mkSquooshLib {
  Image : Type;
  ingestImage : list byte -> Image;
  has_preprocessor : string -> bool;        (* [typeof squoosh.preprocessors[key] !== "undefined"] *)
  encoders : list (string * string);        (* [Object.entries(encoders)]: codec, extension *)
  preprocess : Image -> gmap string PreprocValue -> string + Image;
  encode : Image -> option (gmap string string) -> string + Image;
  encodedWith : Image -> gmap string (string + Encoded);
  decoded : Image -> string + (Z * Z);      (* [(await image.decoded).bitmap]: width, height *)
}.

Definition keep_preproc (lib : SquooshLib) (key : string) (value : PreprocValue) : bool :=
  if String.eqb key "resize" && bool_decide (pv_enabled value = Some false) then false
  else has_preprocessor lib key.

Definition preprocEntries (lib : SquooshLib) (squooshOptions : SquooshOptions)
    : gmap string PreprocValue :=
  filter (fun kv => keep_preproc lib kv.1 kv.2 = true) (squoosh_preprocess squooshOptions).

Definition empty_squoosh_options : SquooshOptions := mkSquooshOptions ∅ None.

Definition squoosh_no_result (original : WorkerResult) : string :=
  "No result from 'squoosh' for '" +:+ filename original +:+
  "', please configure the 'encodeOptions' option to generate images".

Definition squoosh_multiple (original : WorkerResult) : string :=
  "Multiple values for the 'encodeOptions' option is not supported for '" +:+
  filename original +:+ "', specify only one codec for the generator".

Definition squooshGenerate (lib : SquooshLib)
    (original : WorkerResult) (minifyOptions : option SquooshOptions)
    : M (option WorkerResult) :=
  let* isReusePool := get_pool in
  let* _ := (if isReusePool then ret tt else squooshImagePoolCreate) in
  let image := ingestImage lib (data original) in
  let squooshOptions := default empty_squoosh_options minifyOptions in
  let entries := preprocEntries lib squooshOptions in
  let* image :=
    (if (0 <? size entries)%nat then call (preprocess lib image entries) else ret image) in
  match encode lib image (squoosh_encodeOptions squooshOptions) with
  | inl message =>
      let* _ := (if negb isReusePool then imagePool_close else ret tt) in
      let* _ := push (errors original) (error_with original message) in
      ret None
  | inr image =>
      let* _ := (if negb isReusePool then imagePool_close else ret tt) in
      if (size (encodedWith lib image) =? 0)%nat then
        let* _ := push (errors original) (squoosh_no_result original) in
        ret None
      else if (1 <? size (encodedWith lib image))%nat then
        let* _ := push (errors original) (squoosh_multiple original) in
        ret None
      else
        match map_to_list (encodedWith lib image) with
        | [] => throw "TypeError: Cannot destructure property 'binary' of undefined"
        | (_, first) :: _ =>
            let* encoded := call first in
            let* bitmap := call (decoded lib image) in
            let filename' := replaceFileExtension (filename original) (extension encoded) in
            let* warnings' := spread_copy (warnings original) in
            let* errors' := spread_copy (errors original) in
            let* generatedBy := lift (processedBy_of (info original) "generatedBy") in
            ret (Some (mkWorkerResult filename' (binary encoded) warnings' errors'
                         (<["generatedBy" := VStrings ("squoosh" :: generatedBy)]>
                            (<["generated" := VBool true]>
                               (<["height" := VNumber bitmap.2]>
                                  (<["width" := VNumber bitmap.1]> (info original)))))))
        end
  end.

(** The loop that fills [targets] from [Object.entries(encoders)]. *)
Definition squoosh_targets (host : Host) (lib : SquooshLib) : gmap string string :=
  fold_left
    (fun targets entry =>
       let codec := entry.1 in
       let extensionNormalized := toLowerCase host entry.2 in
       let targets :=
         if String.eqb extensionNormalized "jpg" then <["jpeg" := codec]> targets
         else targets in
       <[extensionNormalized := codec]> targets)
    (encoders lib) ∅.

(** [squooshMinify].  Two things are left out: an extension that names a
    property of [Object.prototype] (for which [targets[ext]] is not
    [undefined]), and the write [encodeOptions[targetCodec] = {}] into the
    caller's options, which nothing here reads back. *)
Definition squooshMinify (host : Host) (lib : SquooshLib)
    (original : WorkerResult) (options : option SquooshOptions)
    : M (option WorkerResult) :=
  let targets := squoosh_targets host lib in
  let ext := input_ext host original in
  match targets !! ext with
  | None => ret None
  | Some targetCodec =>
      if String.eqb targetCodec EmptyString then ret None
      else
        let* isReusePool := get_pool in
        let* _ := (if isReusePool then ret tt else squooshImagePoolCreate) in
        let image := ingestImage lib (data original) in
        let squooshOptions := default empty_squoosh_options options in
        let entries := preprocEntries lib squooshOptions in
        let* image :=
          (if (0 <? size entries)%nat then call (preprocess lib image entries)
           else ret image) in
        let encodeOptions := default ∅ (squoosh_encodeOptions squooshOptions) in
        let codecOptions := default "{}" (encodeOptions !! targetCodec) in
        match encode lib image (Some {[ targetCodec := codecOptions ]}) with
        | inl message =>
            let* _ := (if negb isReusePool then imagePool_close else ret tt) in
            let* _ := push (errors original) (error_with original message) in
            ret None
        | inr image =>
            let* _ := (if negb isReusePool then imagePool_close else ret tt) in
            match encodedWith lib image !! targetCodec with
            | None => throw "TypeError: Cannot destructure property 'binary' of undefined"
            | Some pending =>
                let* encoded := call pending in
                let* bitmap := call (decoded lib image) in
                let* warnings' := spread_copy (warnings original) in
                let* errors' := spread_copy (errors original) in
                let* minimizedBy := lift (processedBy_of (info original) "minimizedBy") in
                ret (Some (mkWorkerResult (filename original) (binary encoded)
                             warnings' errors'
                             (<["minimizedBy" := VStrings ("squoosh" :: minimizedBy)]>
                                (<["minimized" := VBool true]>
                                   (<["height" := VNumber bitmap.2]>
                                      (<["width" := VNumber bitmap.1]> (info original)))))))
            end
        end
  end.

(** ** sharp *)







Definition SHARP_GENERATE_FORMATS : list (string * string) :=
  [("avif", "avif"); ("gif", "gif"); ("heic", "heif"); ("heif", "heif");
   ("j2c", "jp2"); ("j2k", "jp2"); ("jp2", "jp2"); ("jpeg", "jpeg");
   ("jpg", "jpeg"); ("jpx", "jp2"); ("png", "png"); ("raw", "raw");
   ("tif", "tiff"); ("tiff", "tiff"); ("webp", "webp"); ("svg", "svg")].

Definition SHARP_MINIFY_FORMATS : list (string * string) :=
  [("avif", "avif"); ("gif", "gif"); ("heic", "heif"); ("heif", "heif");
   ("j2c", "jp2"); ("j2k", "jp2"); ("jp2", "jp2"); ("jpeg", "jpeg");
   ("jpg", "jpeg"); ("jpx", "jp2"); ("png", "png"); ("raw", "raw");
   ("tif", "tiff"); ("tiff", "tiff"); ("webp", "webp")].

(** [formats.has(key)] *)
Definition has (formats : list (string * string)) (key : string) : bool :=
  existsb (fun entry => String.eqb entry.1 key) formats.


(** [Math.ceil((size * percent) / 100)] on integers. *)
Definition ceil_percent (size percent : Z) : Z := (- ((- (size * percent)) / 100))%Z.

(** One dimension of a resize in percent. *)
Definition scale (param original_size : option Z) : option Z :=
  match param, original_size with
  | Some p, Some o => if (0 <? o)%Z then Some (ceil_percent o p) else Some p
  | _, _ => param
  end.









(** ** svgo *)

(** [optimize(original.data.toString(), { path, ...encodeOptions }).data],
    back in a buffer; the message of what it throws on the left. *)
Record SvgoLib := mkSvgoLib {
  optimize : list byte -> string -> option string -> string + list byte;
}.

Record SvgoOptions := mkSvgoOptions { svgo_encodeOptions : option string }.

Definition svgoMinify (host : Host) (lib : SvgoLib)
    (original : WorkerResult) (minimizerOptions : option SvgoOptions)
    : M (option WorkerResult) :=
  if negb (String.eqb (toLowerCase host (path_extname host (filename original))) ".svg")
  then ret None
  else
    let encodeOptions :=
      svgo_encodeOptions (default (mkSvgoOptions None) minimizerOptions) in
    match optimize lib (data original) (filename original) encodeOptions with
    | inl message =>
        let* _ := push (errors original) (error_with original message) in
        ret None
    | inr result =>
        let* warnings' := spread_copy (warnings original) in
        let* errors' := spread_copy (errors original) in
        let* minimizedBy := lift (processedBy_of (info original) "minimizedBy") in
        ret (Some (mkWorkerResult (filename original) result warnings' errors'
                     (<["minimizedBy" := VStrings ("svgo" :: minimizedBy)]>
                        (<["minimized" := VBool true]> (info original)))))
    end.

(** ** The adapters as one family *)











(** ** A POSIX host and stand-ins for the libraries

    Used to run the adapters on concrete inputs. *)

(** The state of the loop of [path.posix.extname]. *)
Record ExtnameState := mkExtnameState {
  startDot : Z;
  startPart : Z;
  end_ : Z;
  matchedSlash : bool;
  preDotState : Z;
}.

Fixpoint extname_loop (path : string) (n : nat) (st : ExtnameState) : ExtnameState :=
  match n with
  | O => st
  | S i =>
      match String.get i path with
      | None => extname_loop path i st
      | Some code =>
          if Ascii.eqb code "/" then
            if negb (matchedSlash st)
            then mkExtnameState (startDot st) (Z.of_nat i + 1) (end_ st)
                                (matchedSlash st) (preDotState st)
            else extname_loop path i st
          else
            let st :=
              if (end_ st =? -1)%Z
              then mkExtnameState (startDot st) (startPart st) (Z.of_nat i + 1)
                                  false (preDotState st)
              else st in
            let st :=
              if Ascii.eqb code "." then
                if (startDot st =? -1)%Z
                then mkExtnameState (Z.of_nat i) (startPart st) (end_ st)
                                    (matchedSlash st) (preDotState st)
                else mkExtnameState (startDot st) (startPart st) (end_ st)
                                    (matchedSlash st) 1
              else if negb (startDot st =? -1)%Z
              then mkExtnameState (startDot st) (startPart st) (end_ st)
                                  (matchedSlash st) (-1)
              else st in
            extname_loop path i st
      end
  end.

Definition posix_extname (path : string) : string :=
  let st := extname_loop path (String.length path) (mkExtnameState (-1) 0 (-1) true 0) in
  if (startDot st =? -1)%Z || (end_ st =? -1)%Z || (preDotState st =? 0)%Z ||
     ((preDotState st =? 1)%Z && (startDot st =? end_ st - 1)%Z &&
      (startDot st =? startPart st + 1)%Z)
  then EmptyString
  else substring (Z.to_nat (startDot st)) (Z.to_nat (end_ st - startDot st)) path.

(** Lower case of a character of Latin-1. *)
Definition lower_char (c : ascii) : ascii :=
  let n := nat_of_ascii c in
  if ((65 <=? n)%nat && (n <=? 90)%nat) ||
     ((192 <=? n)%nat && (n <=? 222)%nat && negb (n =? 215)%nat)
  then ascii_of_nat (n + 32)
  else c.

Fixpoint lower_string (s : string) : string :=
  match s with
  | EmptyString => EmptyString
  | String c r => String (lower_char c) (lower_string r)
  end.

Definition posix_host : Host := mkHost posix_extname lower_string.

(** A RIFF/WebP header, as an encoder to WebP would produce. *)
Definition webp_bytes : list byte := stringToBytes "RIFF$000WEBPVP8 ".

(** An [imagemin] whose one plugin, [imagemin-webp], re-encodes to WebP. *)
Definition webp_imagemin : ImageminLib :=
  mkImageminLib unit
    (fun name _ => if String.eqb name "imagemin-webp" then Some tt else None)
    (fun _ _ => inr webp_bytes).

Definition webp_plugin_options : option ImageminOptions :=
  Some (mkImageminOptions (Some [PluginName "webp"])).


(** A [squoosh] with the codec [webp], which encodes with every codec it
    is given options for. *)
Definition webp_squoosh : SquooshLib :=
  mkSquooshLib (gmap string string)
    (fun _ => ∅)
    (fun key => String.eqb key "resize")
    [("mozjpeg", "jpg"); ("webp", "webp"); ("oxipng", "png")]
    (fun image _ => inr image)
    (fun _ encodeOptions => inr (default ∅ encodeOptions))
    (fun image => (fun _ => inr (mkEncoded webp_bytes "webp")) <$> image)
    (fun _ => inr (640, 480))%Z.



(** A world with two empty arrays, and a work item that owns them. *)
Definition fresh_world : World := mkWorld [[]; []] false 0.

Definition item (name : string) (i : gmap string InfoValue) : WorkerResult :=
  mkWorkerResult name [x00; x01] 0 1 i.


(** ** Vocabulary of the properties *)

Definition is_separator (c : ascii) : bool := Ascii.eqb c "/" || Ascii.eqb c "\".

Definition is_dot (c : ascii) : bool := Ascii.eqb c ".".

(** Some character of [s] satisfies [p]. *)
Fixpoint contains (p : ascii -> bool) (s : string) : bool :=
  match s with
  | EmptyString => false
  | String c r => p c || contains p r
  end.

(** The part of [filename] after its last separator. *)
Fixpoint last_segment (filename : string) : string :=
  match filename with
  | EmptyString => EmptyString
  | String c r => if contains is_separator filename then last_segment r else filename
  end.

Definition png_signature : list byte := [x89; x50; x4e; x47; x0d; x0a; x1a; x0a].

Definition png : FileType := mkFileType "png" "image/png".

Definition apng : FileType := mkFileType "apng" "image/apng".

(** The first [IDAT] chunk type at or after offset 33 starts at [k]. *)
Definition first_IDAT (buffer : list byte) (k : nat) : Prop :=
  startIndex <= k /\ is_IDAT_at buffer k = true /\
  forall i, startIndex <= i -> i < k -> is_IDAT_at buffer i = false.

(** There is no [IDAT] chunk type at or after offset 33. *)
Definition no_IDAT (buffer : list byte) : Prop :=
  forall i, startIndex <= i -> is_IDAT_at buffer i = false.

(** An [acTL] chunk type starts at an offset [j] with [lo <= j < hi]. *)
Definition acTL_in (buffer : list byte) (lo hi : nat) : Prop :=
  exists j, lo <= j /\ j < hi /\ is_acTL_at buffer j = true.



(** A computation that, when it returns, leaves the arrays as they were. *)
Definition keeps_arrays {A} (m : M A) : Prop :=
  forall w a w', m w = (Return a, w') -> arrays w' = arrays w.



(** ** Inputs of the examples *)

(** A PNG signature, an [acTL] chunk type at offset 33, one more byte, and
    no [IDAT]. *)
Definition acTL_without_IDAT : list byte :=
  png_signature ++ replicate 25 x00 ++ stringToBytes "acTL" ++ [x00].

(** A PNG signature, an [acTL] chunk type at offset 37 and an [IDAT] chunk
    type at offset 41. *)
Definition acTL_before_first_IDAT : list byte :=
  png_signature ++ replicate 29 x00 ++ stringToBytes "acTL" ++ stringToBytes "IDAT".

(** Three tasks, the second of which fails. *)
Definition second_fails : list (Outcome nat string) :=
  [Fulfils 10; Rejects "boom"; Fulfils 30].

(** Three tasks, the first of which fails. *)
Definition first_fails : list (Outcome nat string) :=
  [Rejects "boom"; Fulfils 20; Fulfils 30].

(** The state of [throttleAll limit tasks] after the tasks of [schedule]
    have settled, in this order. *)
Definition after {T E} (limit : Z) (tasks : list (Outcome T E)) (schedule : list nat)
    : option (Scheduler T E) :=
  match throttleAll (IntegerNumber limit) tasks with
  | Return st0 => run tasks schedule st0
  | Throw _ => None
  end.


Definition webp : FileType := mkFileType "webp" "image/webp".

(** ** [memoize]

    The function [memoize] returns is a closure over [cache], [result] and
    [fn]; [Memo] is the state of that closure.  [fn] runs in an environment
    of type [Env], which it may change, and throws or returns. *)

Module Memoize.
Section Closure.
Context {Env T : Type}.

Record Memo := mkMemo {
  cache : bool;
  result : option T;                        (* [None] is [undefined] *)
  fn : option (Env -> Completion T * Env);  (* [None] is [undefined] *)
}.

(** [memoize(fn)]: the closure in its first state. *)
Definition memoize (fn : option (Env -> Completion T * Env)) : Memo :=
  mkMemo false None fn.

(** One call of the closure in state [m], in the environment [s]: what it
    returns or throws, the next state of the closure, and the environment
    it leaves. *)
Definition memoized (m : Memo) (s : Env) : Completion (option T) * Memo * Env :=
  if cache m then (Return (result m), m, s)
  else
    match fn m with
    | None => (Throw "TypeError: fn is not a function", m, s)
    | Some f =>
        match f s with
        | (Throw error, s') => (Throw error, m, s')
        | (Return v, s') => (Return (Some v), mkMemo true (Some v) None, s')
        end
    end.

(** [n] calls in a row; the answers come in the order of the calls. *)
Fixpoint calls (n : nat) (m : Memo) (s : Env)
    : list (Completion (option T)) * Memo * Env :=
  match n with
  | O => ([], m, s)
  | S n' =>
      match memoized m s with
      | (answer, m', s') =>
          match calls n' m' s' with
          | (answers, m'', s'') => (answer :: answers, m'', s'')
          end
      end
  end.
End Closure.
End Memoize.

(** ** More vocabulary *)

(** The types the sniffer knows, in the order of its rules. *)
Definition KNOWN_TYPES : list FileType :=
  [mkFileType "jpg" "image/jpeg"; png; apng; mkFileType "gif" "image/gif"; webp;
   mkFileType "flif" "image/flif"; mkFileType "cr2" "image/x-canon-cr2";
   mkFileType "orf" "image/x-olympus-orf"; mkFileType "arw" "image/x-sony-arw";
   mkFileType "dng" "image/x-adobe-dng"; mkFileType "nef" "image/x-nikon-nef";
   mkFileType "rw2" "image/x-panasonic-rw2"; mkFileType "raf" "image/x-fujifilm-raf";
   mkFileType "tif" "image/tiff"; mkFileType "bmp" "image/bmp";
   mkFileType "jxr" "image/vnd.ms-photo"; mkFileType "psd" "image/vnd.adobe.photoshop";
   mkFileType "avif" "image/avif"; mkFileType "heic" "image/heif";
   mkFileType "heic" "image/heif-sequence"; mkFileType "heic" "image/heic";
   mkFileType "heic" "image/heic-sequence"; mkFileType "ico" "image/x-icon";
   mkFileType "cur" "image/x-icon"; mkFileType "bpg" "image/bpg";
   mkFileType "jp2" "image/jp2"; mkFileType "jpx" "image/jpx";
   mkFileType "jpm" "image/jpm"; mkFileType "mj2" "image/mj2";
   mkFileType "jxl" "image/jxl"; mkFileType "ktx" "image/ktx"].

(** The indices of the tasks a history has started, in the order of their
    start. *)
Definition started (h : list Event) : list nat :=
  omap (fun ev => match ev with Started i => Some i | _ => None end) h.

(** What [imageminNormalizeConfig] loads for one entry of [plugins]: the
    package with the [imagemin-] prefix if that loads, the package of the
    name as given otherwise. *)
Definition resolve_plugin (lib : ImageminLib) (spec : PluginSpec) : option (Plugin lib) :=
  match spec with
  | PluginOther _ => None
  | PluginName pluginName =>
      match import_default lib (imagemin_prefixed pluginName) None with
      | Some requiredPlugin => Some requiredPlugin
      | None => import_default lib pluginName None
      end
  | PluginPair pluginName pluginOptions =>
      match import_default lib (imagemin_prefixed pluginName) pluginOptions with
      | Some requiredPlugin => Some requiredPlugin
      | None => import_default lib pluginName pluginOptions
      end
  end.

(** ** More inputs of examples *)

(** A function that counts its runs in the environment; its first run
    throws, the later ones return the count. *)
Definition flaky (runs : nat) : Completion nat * nat :=
  (if (runs =? 0)%nat then Throw "not yet" else Return runs, S runs).

(** An [imagemin] whose plugins load and whose [buffer] throws. *)
Definition failing_imagemin : ImageminLib :=
  mkImageminLib unit (fun _ _ => Some tt) (fun _ _ => inl "corrupt input").

(** An [svgo] that throws. *)
Definition failing_svgo : SvgoLib := mkSvgoLib (fun _ _ _ => inl "not well-formed").

(** A computation that, when it returns, leaves the variable [pool] and
    the count of open pools as they were. *)
Definition keeps_pools {A} (m : M A) : Prop :=
  forall w a w', m w = (Return a, w') -> pool w' = pool w /\ open_pools w' = open_pools w.

(* ===================================================================== *)
(** * Part II: properties                                                 *)
(* ===================================================================== *)

(** ** Filenames *)

Lemma string_app_cons (c : ascii) (s t : string) :
  String c s +:+ t = String c (s +:+ t).
Proof. reflexivity. Qed.

Lemma string_app_nil_l (s : string) : EmptyString +:+ s = s.
Proof. reflexivity. Qed.

Lemma string_app_nil_r (s : string) : s +:+ EmptyString = s.
Proof.
  induction s as [|c s IH]; [reflexivity|].
  now rewrite string_app_cons, IH.
Qed.

Lemma string_app_assoc (s1 s2 s3 : string) : (s1 +:+ s2) +:+ s3 = s1 +:+ (s2 +:+ s3).
Proof.
  induction s1 as [|c s1 IH]; [reflexivity|].
  now rewrite !string_app_cons, IH.
Qed.

Lemma string_length_app (s1 s2 : string) :
  String.length (s1 +:+ s2) = String.length s1 + String.length s2.
Proof.
  induction s1 as [|c s1 IH]; [reflexivity|].
  rewrite string_app_cons. simpl. now rewrite IH.
Qed.

Lemma get_app_middle (p : string) (c : ascii) (s : string) :
  String.get (String.length p) (p +:+ String c s) = Some c.
Proof.
  induction p as [|d p IH]; [reflexivity|].
  rewrite string_app_cons. simpl. exact IH.
Qed.

(** Characters that are neither a dot nor a separator do not stop the loop. *)
Lemma findDotIndex_skip (s p : string) :
  contains is_dot s = false -> contains is_separator s = false ->
  findDotIndex (p +:+ s) (String.length p + String.length s) =
  findDotIndex (p +:+ s) (String.length p).
Proof.
  revert p. induction s as [|c s IH]; intros p Hdot Hsep.
  - simpl. now rewrite Nat.add_0_r.
  - simpl in Hdot, Hsep.
    apply orb_false_iff in Hdot as [Hc Hdot].
    apply orb_false_iff in Hsep as [Hc' Hsep].
    specialize (IH (p +:+ String c EmptyString) Hdot Hsep).
    rewrite string_app_assoc, string_length_app, string_app_cons, string_app_nil_l in IH.
    simpl in IH.
    replace (String.length p + String.length (String c s))
      with (String.length p + 1 + String.length s) by (simpl; lia).
    rewrite IH. rewrite Nat.add_1_r. simpl.
    rewrite get_app_middle. unfold is_dot in Hc. rewrite Hc.
    unfold is_separator in Hc'. now rewrite Hc'.
Qed.

(** The loop stops with [-1] on a separator. *)
Lemma findDotIndex_separator (p : string) (c : ascii) (s : string) :
  is_separator c = true ->
  findDotIndex (p +:+ String c s) (S (String.length p)) = (-1)%Z.
Proof.
  intros Hc. simpl. rewrite get_app_middle.
  unfold is_separator in Hc.
  destruct (Ascii.eqb_spec c "."%char) as [->|_]; [discriminate Hc|].
  now rewrite Hc.
Qed.

Lemma last_segment_no_separator (filename : string) :
  contains is_separator (last_segment filename) = false.
Proof.
  induction filename as [|c r IH]; [reflexivity|].
  cbn [last_segment].
  destruct (contains is_separator (String c r)) eqn:E; [exact IH | exact E].
Qed.

(** A filename is its last segment, after nothing or after a prefix that
    ends in a separator. *)
Lemma last_segment_split (filename : string) :
  filename = last_segment filename \/
  exists p c, is_separator c = true /\
              filename = p +:+ String c (last_segment filename).
Proof.
  induction filename as [|c r IH]; [now left|].
  cbn [last_segment].
  destruct (contains is_separator (String c r)) eqn:E; [|now left].
  right. destruct IH as [IH | (p & d & Hd & IH)].
  - exists EmptyString, c. rewrite string_app_nil_l. split; [|now rewrite <- IH].
    simpl in E. rewrite IH in E. rewrite last_segment_no_separator in E.
    now rewrite orb_false_r in E.
  - exists (String c p), d. split; [exact Hd|]. rewrite string_app_cons. now rewrite <- IH.
Qed.

Lemma replaceFileExtension_no_dot (filename ext : string) :
  contains is_dot (last_segment filename) = false ->
  replaceFileExtension filename ext = filename.
Proof.
  intros Hdot. unfold replaceFileExtension.
  pose proof (last_segment_no_separator filename) as Hsep.
  assert (findDotIndex filename (String.length filename) = (-1)%Z) as ->; [|reflexivity].
  destruct (last_segment_split filename) as [H | (p & c & Hc & H)].
  - pose proof (findDotIndex_skip (last_segment filename) EmptyString Hdot Hsep) as Hs.
    rewrite string_app_nil_l in Hs. simpl in Hs. rewrite <- H in Hs. exact Hs.
  - pose proof (findDotIndex_skip (last_segment filename)
                  (p +:+ String c EmptyString) Hdot Hsep) as Hs.
    rewrite string_app_assoc, string_app_cons, string_app_nil_l in Hs.
    rewrite <- H in Hs.
    rewrite H at 2. 
    replace (String.length (p +:+ String c (last_segment filename)))
      with (String.length (p +:+ String c EmptyString) + String.length (last_segment filename)).
    2:{ rewrite !string_length_app. simpl. lia. }
    rewrite Hs. rewrite string_length_app. simpl. rewrite Nat.add_1_r.
    rewrite H. apply findDotIndex_separator. exact Hc.
Qed.


Lemma contains_app (p : ascii -> bool) (s t : string) :
  contains p (s +:+ t) = contains p s || contains p t.
Proof.
  induction s as [|c s IH]; [reflexivity|].
  rewrite string_app_cons. simpl. now rewrite IH, orb_assoc.
Qed.

(** A string with a dot splits at its last dot. *)
Lemma last_dot_split (s : string) :
  contains is_dot s = true ->
  exists stem old, s = stem +:+ "." +:+ old /\ contains is_dot old = false.
Proof.
  induction s as [|c s IH]; [discriminate|]. simpl. intros H.
  destruct (contains is_dot s) eqn:Hs.
  - destruct (IH eq_refl) as (stem & old & -> & Hold).
    exists (String c stem), old. now rewrite string_app_cons.
  - rewrite orb_false_r in H. unfold is_dot in H. apply Ascii.eqb_eq in H as ->.
    exists EmptyString, s. now split.
Qed.

Lemma slice_to_app (stem rest : string) :
  slice_to (String.length stem) (stem +:+ rest) = stem.
Proof.
  unfold slice_to. induction stem as [|c stem IH].
  - simpl. now destruct rest.
  - rewrite string_app_cons. simpl. now rewrite IH.
Qed.

(** The loop finds the dot that is followed by neither a dot nor a
    separator. *)
Lemma findDotIndex_last_dot (stem old : string) :
  contains is_dot old = false -> contains is_separator old = false ->
  findDotIndex (stem +:+ "." +:+ old) (String.length (stem +:+ "." +:+ old))
  = Z.of_nat (String.length stem).
Proof.
  intros Hdot Hsep.
  pose proof (findDotIndex_skip old (stem +:+ ".") Hdot Hsep) as Hskip.
  rewrite string_app_assoc in Hskip.
  rewrite !string_length_app. rewrite string_length_app in Hskip.
  replace (String.length stem + (String.length "." + String.length old))
    with (String.length stem + String.length "." + String.length old) by lia.
  rewrite Hskip. change (String.length ".") with 1. rewrite Nat.add_1_r.
  cbn [findDotIndex].
  change ("." +:+ old) with (String "."%char old).
  now rewrite get_app_middle.
Qed.

Lemma replaceFileExtension_last_dot (stem old ext : string) :
  contains is_dot old = false -> contains is_separator old = false ->
  replaceFileExtension (stem +:+ "." +:+ old) ext = stem +:+ "." +:+ ext.
Proof.
  intros Hdot Hsep. unfold replaceFileExtension.
  rewrite (findDotIndex_last_dot _ _ Hdot Hsep).
  destruct (Z.eqb_spec (Z.of_nat (String.length stem)) (-1)); [lia|].
  now rewrite Nat2Z.id, slice_to_app.
Qed.

(** A filename whose last segment has a dot ends in an extension. *)
Lemma last_segment_dot_split (filename : string) :
  contains is_dot (last_segment filename) = true ->
  exists stem old, filename = stem +:+ "." +:+ old /\
                   contains is_dot old = false /\ contains is_separator old = false.
Proof.
  intros Hdot. pose proof (last_segment_no_separator filename) as Hsep.
  destruct (last_dot_split _ Hdot) as (stem & old & Hseg & Hold).
  rewrite Hseg, !contains_app in Hsep.
  apply orb_false_iff in Hsep as [_ Hsep]. apply orb_false_iff in Hsep as [_ Hsep].
  destruct (last_segment_split filename) as [H | (p & c & Hc & H)].
  - exists stem, old. now rewrite H at 1.
  - exists (p +:+ String c stem), old. split; [|now split].
    rewrite H at 1. rewrite Hseg. rewrite string_app_assoc. now rewrite string_app_cons.
Qed.




(** C9. [replaceFileExtension "path/img.png" "webp"] is ["path/img.webp"],
    and a filename whose last path segment (what follows the last [/] or
    [\]) has no [.] is returned unchanged, whatever the new extension. *)
Theorem replaceFileExtension_example_and_no_dot :
  replaceFileExtension "path/img.png" "webp" = "path/img.webp" /\
  forall filename ext,
    contains is_dot (last_segment filename) = false ->
    replaceFileExtension filename ext = filename.
Proof. split; [reflexivity | exact replaceFileExtension_no_dot]. Qed.

Lemma replaceFileExtension_example_and_no_dot_witness :
  contains is_dot (last_segment "pa.th/img") = false /\
  replaceFileExtension "pa.th/img" "webp" = "pa.th/img".
Proof.
  split; [reflexivity|].
  apply (proj2 replaceFileExtension_example_and_no_dot "pa.th/img" "webp").
  reflexivity.
Defined.

(** ** [isAbsoluteURL] *)



(** ** The sniffer *)

Lemma findIndex_from_nonneg {A} (q : nat -> bool) (a : list A) (i : nat) :
  (0 <= findIndex_from (fun _ j => q j) a i)%Z <->
  exists j, i <= j /\ j < i + length a /\ q j = true.
Proof.
  revert i. induction a as [|el a IH]; intros i; simpl.
  - split; [lia | intros (j & ? & ? & _); lia].
  - destruct (q i) eqn:Hq.
    + split; [intros _; exists i; repeat split; [lia..|exact Hq] | lia].
    + rewrite IH. split; intros (j & H1 & H2 & H3); exists j.
      * repeat split; [lia..|exact H3].
      * assert (j <> i) by (intros ->; congruence).
        repeat split; [lia..|exact H3].
Qed.

Lemma findIndex_from_first {A} (q : nat -> bool) (a : list A) (i k : nat) :
  i <= k -> k < i + length a -> q k = true ->
  (forall j, i <= j -> j < k -> q j = false) ->
  findIndex_from (fun _ j => q j) a i = Z.of_nat k.
Proof.
  revert i. induction a as [|el a IH]; intros i Hik Hk Hq Hfirst; simpl in *; [lia|].
  destruct (decide (i = k)) as [->|Hne]; [now rewrite Hq|].
  rewrite Hfirst by lia. apply IH; [lia..|exact Hq|].
  intros j ? ?. apply Hfirst; lia.
Qed.

Lemma byte_is_lt (buffer : list byte) (i : nat) (b : byte) :
  byte_is buffer i b = true -> i < length buffer.
Proof.
  unfold byte_is. destruct (buffer !! i) eqn:E; [|discriminate].
  intros _. eapply lookup_lt_Some, E.
Qed.

Lemma byte_is_eq (buffer : list byte) (i : nat) (b : byte) :
  byte_is buffer i b = true -> buffer !! i = Some b.
Proof.
  unfold byte_is. destruct (buffer !! i) as [x|]; [|discriminate].
  intros H. f_equal. now apply Byte.byte_dec_bl.
Qed.

Lemma byte_is_take_drop (buffer : list byte) (m b i : nat) (x : byte) :
  byte_is (take m (drop b buffer)) i x =
  if (i <? m)%nat then byte_is buffer (b + i) x else false.
Proof.
  unfold byte_is. destruct (Nat.ltb_spec i m) as [Hlt|Hge].
  - now rewrite lookup_take_lt, lookup_drop by exact Hlt.
  - now rewrite lookup_take_ge by exact Hge.
Qed.

Lemma first_IDAT_index (buffer : list byte) (k : nat) :
  first_IDAT buffer k -> firstImageDataChunkIndex buffer = Z.of_nat k.
Proof.
  intros (Hk & Hat & Hfirst). unfold firstImageDataChunkIndex, findIndex.
  apply (findIndex_from_first (fun i => (startIndex <=? i)%nat && is_IDAT_at buffer i)).
  - lia.
  - unfold is_IDAT_at in Hat. apply andb_true_iff in Hat as [Hat _].
    apply andb_true_iff in Hat as [Hat _]. apply andb_true_iff in Hat as [Hat _].
    apply byte_is_lt in Hat. lia.
  - rewrite Hat. now apply andb_true_iff; split; [apply Nat.leb_le|].
  - intros j _ Hj. destruct (Nat.leb_spec startIndex j); [|reflexivity].
    now rewrite Hfirst.
Qed.

Lemma no_IDAT_index (buffer : list byte) :
  no_IDAT buffer -> firstImageDataChunkIndex buffer = (-1)%Z.
Proof.
  intros Hno. unfold firstImageDataChunkIndex, findIndex.
  destruct (Z_lt_le_dec (findIndex_from
     (fun _ i => (startIndex <=? i)%nat && is_IDAT_at buffer i) buffer 0) 0) as [Hlt|Hge].
  - assert (forall {A} (p : A -> nat -> bool) (a : list A) i,
              (-1 <= findIndex_from p a i)%Z) as Hlow.
    { intros A p a. induction a as [|el a IH]; intros i; simpl; [lia|].
      destruct (p el i); [lia | apply IH]. }
    specialize (Hlow _ (fun _ i => (startIndex <=? i)%nat && is_IDAT_at buffer i) buffer 0).
    lia.
  - apply (findIndex_from_nonneg
             (fun i => (startIndex <=? i)%nat && is_IDAT_at buffer i)) in Hge
      as (j & _ & _ & Hj).
    apply andb_true_iff in Hj as [Hj1 Hj2]. apply Nat.leb_le in Hj1.
    rewrite Hno in Hj2 by exact Hj1. discriminate.
Qed.

(** An [acTL] type cannot overlap the [IDAT] type that follows it. *)
Lemma acTL_before_IDAT (buffer : list byte) (j k : nat) :
  is_acTL_at buffer j = true -> is_IDAT_at buffer k = true -> j < k -> j + 3 < k.
Proof.
  unfold is_acTL_at, is_IDAT_at. intros Ha Hi Hjk.
  repeat (apply andb_true_iff in Ha as [Ha ?]).
  repeat (apply andb_true_iff in Hi as [Hi ?]).
  repeat match goal with H : byte_is _ _ _ = true |- _ => apply byte_is_eq in H end.
  destruct (decide (k = j + 1)) as [->|]; [congruence|].
  destruct (decide (k = j + 2)) as [->|]; [congruence|].
  destruct (decide (k = j + 3)) as [->|]; [congruence|].
  lia.
Qed.

Lemma is_acTL_at_take_drop (buffer : list byte) (m b i : nat) :
  is_acTL_at (take m (drop b buffer)) i = true <->
  i + 3 < m /\ is_acTL_at buffer (b + i) = true.
Proof.
  unfold is_acTL_at. rewrite !byte_is_take_drop.
  replace (b + (i + 1)) with (b + i + 1) by lia.
  replace (b + (i + 2)) with (b + i + 2) by lia.
  replace (b + (i + 3)) with (b + i + 3) by lia.
  destruct (Nat.ltb_spec (i + 3) m) as [H3|H3].
  - destruct (Nat.ltb_spec i m); [|lia].
    destruct (Nat.ltb_spec (i + 1) m); [|lia].
    destruct (Nat.ltb_spec (i + 2) m); [|lia].
    split; [intros Hx; split; [lia|exact Hx] | intros [_ Hx]; exact Hx].
  - rewrite andb_false_r. split; [discriminate | intros [Hx _]; lia].
Qed.

(** With a first [IDAT] at [k], the answer is [apng] exactly when an
    [acTL] starts in [[33, k)]. *)
Lemma png_or_apng_with_IDAT (buffer : list byte) (k : nat) :
  first_IDAT buffer k ->
  (png_or_apng buffer = apng <-> acTL_in buffer startIndex k) /\
  (png_or_apng buffer = png <-> ~ acTL_in buffer startIndex k).
Proof.
  intros Hfirst. pose proof Hfirst as (Hk & Hat & _).
  assert (k < length buffer) as Hlen.
  { unfold is_IDAT_at in Hat. repeat (apply andb_true_iff in Hat as [Hat ?]).
    now apply byte_is_lt in Hat. }
  unfold png_or_apng. rewrite (first_IDAT_index _ _ Hfirst).
  assert (subarray buffer (Z.of_nat startIndex) (Z.of_nat k)
          = take (k - startIndex) (drop startIndex buffer)) as ->.
  { unfold subarray, relative_index.
    destruct (Z.ltb_spec (Z.of_nat startIndex) 0); [lia|].
    destruct (Z.ltb_spec (Z.of_nat k) 0); [lia|].
    f_equal; [|f_equal]; lia. }
  set (sliced := take (k - startIndex) (drop startIndex buffer)).
  assert ((0 <= findIndex (fun _ i => is_acTL_at sliced i) sliced)%Z
          <-> acTL_in buffer startIndex k) as Hiff.
  { unfold findIndex. rewrite (findIndex_from_nonneg (fun i => is_acTL_at sliced i)).
    split.
    - intros (i & _ & _ & Hi). apply is_acTL_at_take_drop in Hi as [Hi1 Hi2].
      exists (startIndex + i). repeat split; [lia..|exact Hi2].
    - intros (j & Hj1 & Hj2 & Hj3).
      pose proof (acTL_before_IDAT _ _ _ Hj3 Hat Hj2).
      exists (j - startIndex). split; [lia|]. split.
      + unfold sliced. rewrite length_take, length_drop. lia.
      + apply is_acTL_at_take_drop. split; [lia|].
        now replace (startIndex + (j - startIndex)) with j by lia. }
  destruct (Z.leb_spec 0 (findIndex (fun _ i => is_acTL_at sliced i) sliced)) as [Hle|Hlt].
  - apply Hiff in Hle. split; split; try discriminate; try (intros _; exact Hle).
    + reflexivity.
    + intros Hnot. contradiction.
  - assert (~ acTL_in buffer startIndex k) as Hnot.
    { intros Hin. apply Hiff in Hin. lia. }
    split; split; try discriminate; try (intros _; exact Hnot).
    + intros Hin. contradiction.
    + reflexivity.
Qed.

Lemma sniff_png (rest : list byte) :
  fileTypeFromBuffer (Uint8Array (png_signature ++ rest))
  = Return (Some (png_or_apng (png_signature ++ rest))).
Proof. reflexivity. Qed.

Lemma png_or_apng_cases (buffer : list byte) :
  png_or_apng buffer = apng \/ png_or_apng buffer = png.
Proof. unfold png_or_apng. destruct (_ <=? _)%Z; [now left | now right]. Qed.

(** C7. A buffer shorter than 2 bytes is not classified, and the sniffer
    returns rather than throws, whichever kind of buffer it was given in. *)
Theorem fileTypeFromBuffer_short (buffer : list byte) :
  length buffer < 2 ->
  fileTypeFromBuffer (Uint8Array buffer) = Return None /\
  fileTypeFromBuffer (ArrayBuffer buffer) = Return None /\
  fileTypeFromBuffer (NodeBuffer buffer) = Return None.
Proof.
  intros Hshort. unfold fileTypeFromBuffer.
  destruct (Nat.ltb_spec 1 (length buffer)); [lia|]. now repeat split.
Qed.

Lemma fileTypeFromBuffer_short_witness :
  length [xff] < 2 /\
  fileTypeFromBuffer (Uint8Array [xff]) = Return None /\
  fileTypeFromBuffer (ArrayBuffer [xff]) = Return None /\
  fileTypeFromBuffer (NodeBuffer [xff]) = Return None.
Proof. split; [simpl; lia | apply (fileTypeFromBuffer_short [xff]); simpl; lia]. Defined.

(** X1. A buffer that starts with the PNG
    signature is classified as [png] or [apng], and the sniffer returns.
    With a first [IDAT] chunk type at offset [k >= 33], it is [apng]
    exactly when an [acTL] chunk type starts at an offset in [[33, k)],
    and [png] otherwise. *)
Theorem png_apng_detection (rest : list byte) :
  let buffer := png_signature ++ rest in
  (fileTypeFromBuffer (Uint8Array buffer) = Return (Some png) \/
   fileTypeFromBuffer (Uint8Array buffer) = Return (Some apng)) /\
  (forall k,
     first_IDAT buffer k ->
     (fileTypeFromBuffer (Uint8Array buffer) = Return (Some apng)
      <-> acTL_in buffer startIndex k) /\
     (fileTypeFromBuffer (Uint8Array buffer) = Return (Some png)
      <-> ~ acTL_in buffer startIndex k)).
Proof.
  intros buffer. unfold buffer. rewrite sniff_png.
  set (b := png_signature ++ rest).
  assert (forall t, Return (Some (png_or_apng b)) = Return (Some t) <-> png_or_apng b = t)
    as Hinj.
  { intros t. split; [now intros [= ->] | now intros ->]. }
  split.
  - destruct (png_or_apng_cases b) as [-> | ->]; [now right | now left].
  - intros k Hfirst. rewrite !Hinj. now apply png_or_apng_with_IDAT.
Qed.

Lemma first_IDAT_scan (buffer : list byte) (k : nat) :
  (startIndex <=? k)%nat = true -> is_IDAT_at buffer k = true ->
  forallb (fun i => negb (is_IDAT_at buffer i)) (seq startIndex (k - startIndex)) = true ->
  first_IDAT buffer k.
Proof.
  intros Hk Hat Hscan. apply Nat.leb_le in Hk. split; [exact Hk|]. split; [exact Hat|].
  intros i H1 H2. rewrite forallb_forall in Hscan.
  apply negb_true_iff, Hscan, in_seq. lia.
Qed.

Lemma png_apng_detection_witness :
  first_IDAT acTL_before_first_IDAT 41 /\
  acTL_in acTL_before_first_IDAT startIndex 41 /\
  fileTypeFromBuffer (Uint8Array acTL_before_first_IDAT) = Return (Some apng).
Proof.
  assert (first_IDAT acTL_before_first_IDAT 41) as Hfirst
    by (now apply first_IDAT_scan).
  assert (acTL_in acTL_before_first_IDAT startIndex 41) as Hin.
  { exists 37. unfold startIndex. split; [lia|]. split; [lia|reflexivity]. }
  split; [exact Hfirst|]. split; [exact Hin|].
  exact (proj2 (proj1 (proj2 (png_apng_detection
           (replicate 29 x00 ++ stringToBytes "acTL" ++ stringToBytes "IDAT"))
           41 Hfirst)) Hin).
Defined.

(** C4 fails on the code where no [IDAT] chunk is located.  The buffer
    [acTL_without_IDAT] starts with the PNG signature and has no [IDAT]
    chunk type, so [findIndex] answers [-1]; the code hands this [-1] to
    [subarray] as the end of the region to scan, where it means "the last
    byte but one", the region is the [acTL] chunk type at offset 33, and
    the sniffer answers [apng] where C4 says [png]. *)
Theorem acTL_without_IDAT_is_apng :
  firstImageDataChunkIndex acTL_without_IDAT = (-1)%Z /\
  subarray acTL_without_IDAT (Z.of_nat startIndex)
    (firstImageDataChunkIndex acTL_without_IDAT) = stringToBytes "acTL" /\
  fileTypeFromBuffer (Uint8Array acTL_without_IDAT) = Return (Some apng).
Proof. repeat split; reflexivity. Qed.

(** ** [throttleAll] *)

Section ThrottleFacts.
Context {T E : Type}.
Implicit Types (tasks : list (Outcome T E)) (st : Scheduler T E).
Implicit Types (h : list Event) (a : list (option T)).

Lemma first_failure_app tasks h ev :
  first_failure tasks (h ++ [ev]) =
  match first_failure tasks h with
  | Some e => Some e
  | None => first_failure tasks [ev]
  end.
Proof.
  induction h as [|ev' h IH]; [simpl; now destruct (first_failure tasks [ev])|].
  simpl. destruct ev' as [i|i|i]; try exact IH.
  destruct (tasks !! i) as [[v|e]|]; [exact IH|reflexivity|exact IH].
Qed.

Lemma failures_app h ev :
  failures (h ++ [ev]) = failures h + (if is_failed ev then 1 else 0).
Proof.
  unfold failures. rewrite List.filter_app, length_app. simpl.
  now destruct (is_failed ev).
Qed.

Lemma sequential_history_S tasks k :
  sequential_history tasks (S k) =
  sequential_history tasks k ++ [Started k; settled_event tasks k].
Proof.
  unfold sequential_history. rewrite seq_S, flat_map_app. reflexivity.
Qed.

Lemma length_filter_ne (l : list nat) (i : nat) :
  NoDup l -> i ∈ l -> S (length (filter (λ j, j ≠ i) l)) = length l.
Proof.
  induction 1 as [|x l Hx Hnd IH]; intros Hi; [now apply elem_of_nil in Hi|].
  apply elem_of_cons in Hi as [->|Hi].
  - rewrite filter_cons_False by (intros H; now apply H). simpl. f_equal.
    clear IH. induction l as [|y l IH]; [reflexivity|].
    apply not_elem_of_cons in Hx as [Hxy Hx]. apply NoDup_cons in Hnd as [_ Hnd].
    rewrite filter_cons_True by congruence. simpl. now rewrite IH.
  - rewrite filter_cons_True by (intros ->; contradiction). simpl. now rewrite IH.
Qed.

Lemma array_set_length a i (v : T) :
  length (array_set a i v) = Nat.max (length a) (S i).
Proof.
  unfold array_set. destruct (Nat.ltb_spec i (length a)).
  - rewrite length_insert. lia.
  - rewrite !length_app, length_replicate. simpl. lia.
Qed.

Lemma array_set_eq a i (v : T) : array_set a i v !! i = Some (Some v).
Proof.
  unfold array_set. destruct (Nat.ltb_spec i (length a)).
  - now apply list_lookup_insert_eq.
  - rewrite lookup_app_r by lia. rewrite lookup_app_r by (rewrite length_replicate; lia).
    rewrite length_replicate. now replace (i - length a - (i - length a)) with 0 by lia.
Qed.

Lemma array_set_keeps a i j (v : T) x :
  a !! j = Some x -> j ≠ i -> array_set a i v !! j = Some x.
Proof.
  intros Hj Hne. unfold array_set. destruct (Nat.ltb_spec i (length a)).
  - now rewrite list_lookup_insert_ne.
  - rewrite lookup_app_l; [exact Hj | eapply lookup_lt_Some, Hj].
Qed.

(** The state after [k] calls of [next()] from the start of the executor. *)
Lemma executor_calls tasks (k : nat) :
  Nat.iter k (next tasks) executor_start =
  mkScheduler (Nat.min k (length tasks)) [] 0
    (if (0 <? k)%nat && (length tasks =? 0)%nat then Resolved else Pending)
    (seq 0 (Nat.min k (length tasks)))
    (Started <$> seq 0 (Nat.min k (length tasks))).
Proof.
  induction k as [|k IH]; [reflexivity|].
  change (Nat.iter (S k) (next tasks) executor_start)
    with (next tasks (Nat.iter k (next tasks) executor_start)).
  rewrite IH. unfold next. cbn [entries tasksFulfilled result promise inflight history].
  destruct (tasks !! Nat.min k (length tasks)) as [o|] eqn:Hlook.
  - apply lookup_lt_Some in Hlook.
    assert (k < length tasks) by lia.
    replace (Nat.min k (length tasks)) with k by lia.
    replace (Nat.min (S k) (length tasks)) with (S k) by lia.
    rewrite seq_S, fmap_app. simpl.
    destruct (Nat.eqb_spec (length tasks) 0); [lia|].
    rewrite andb_false_r. now destruct (0 <? k)%nat.
  - apply lookup_ge_None in Hlook.
    assert (length tasks <= k) by lia.
    replace (Nat.min (S k) (length tasks)) with (Nat.min k (length tasks)) by lia.
    destruct (Nat.eqb_spec 0 (length tasks)) as [Hz|Hz].
    + rewrite <- Hz. simpl. unfold resolve. simpl.
      rewrite andb_true_r. now destruct (0 <? k)%nat.
    + destruct (Nat.eqb_spec (length tasks) 0); [lia|].
      rewrite andb_false_r. now destruct (0 <? k)%nat.
Qed.

Lemma failures_started (l : list nat) : failures (Started <$> l) = 0.
Proof. induction l as [|x l IH]; [reflexivity | exact IH]. Qed.

Lemma first_failure_started tasks (l : list nat) :
  first_failure tasks (Started <$> l) = None.
Proof. induction l as [|x l IH]; [reflexivity | exact IH]. Qed.

Lemma invariant_start tasks (L : nat) :
  1 <= L -> invariant L tasks (Nat.iter L (next tasks) executor_start).
Proof.
  intros HL. rewrite executor_calls.
  constructor; cbn [entries tasksFulfilled result promise inflight history].
  - lia.
  - apply NoDup_seq.
  - intros i Hi. apply elem_of_seq in Hi. lia.
  - rewrite length_seq, failures_started. lia.
  - rewrite length_seq, failures_started. lia.
  - rewrite length_seq, failures_started. lia.
  - intros _. apply failures_started.
  - rewrite first_failure_started.
    destruct (Nat.ltb_spec 0 L); [|lia].
    now destruct (length tasks).
  - simpl. lia.
  - intros i v Hi Hnot. exfalso. apply Hnot, elem_of_seq. lia.
  - intros ->. destruct (length tasks) as [|n]; [left; now split|].
    right. exists 0. now repeat split.
Qed.

Lemma settle_inv tasks i st st' :
  settle tasks i st = Some st' ->
  i ∈ inflight st /\
  ((exists v, tasks !! i = Some (Fulfils v) /\
      st' = onFulfilled tasks i v
              (mkScheduler (entries st) (result st) (tasksFulfilled st) (promise st)
                 (filter (λ j, j ≠ i) (inflight st)) (history st ++ [Fulfilled i]))) \/
   (exists e, tasks !! i = Some (Rejects e) /\
      st' = reject e
              (mkScheduler (entries st) (result st) (tasksFulfilled st) (promise st)
                 (filter (λ j, j ≠ i) (inflight st)) (history st ++ [Failed i])))).
Proof.
  unfold settle. destruct (bool_decide_reflect (i ∈ inflight st)) as [Hi|]; [|discriminate].
  destruct (tasks !! i) as [[v|e]|]; [| |discriminate]; intros [= <-].
  - split; [exact Hi|]. left. now exists v.
  - split; [exact Hi|]. right. now exists e.
Qed.

Lemma reject_fields e st :
  entries (reject e st) = entries st /\ result (reject e st) = result st /\
  tasksFulfilled (reject e st) = tasksFulfilled st /\
  inflight (reject e st) = inflight st /\ history (reject e st) = history st /\
  promise (reject e st) = match promise st with Pending => Rejected e | p => p end.
Proof. unfold reject. destruct (promise st) eqn:Hp; rewrite ?Hp; now repeat split. Qed.

Lemma resolve_fields st :
  entries (resolve st) = entries st /\ result (resolve st) = result st /\
  tasksFulfilled (resolve st) = tasksFulfilled st /\
  inflight (resolve st) = inflight st /\ history (resolve st) = history st /\
  promise (resolve st) = match promise st with Pending => Resolved | p => p end.
Proof. unfold resolve. destruct (promise st) eqn:Hp; rewrite ?Hp; now repeat split. Qed.

Lemma invariant_reject L tasks st i e :
  invariant L tasks st -> i ∈ inflight st -> tasks !! i = Some (Rejects e) ->
  invariant L tasks
    (reject e (mkScheduler (entries st) (result st) (tasksFulfilled st) (promise st)
                 (filter (λ j, j ≠ i) (inflight st)) (history st ++ [Failed i]))).
Proof.
  intros Inv Hi He.
  pose proof (length_filter_ne _ _ (inv_nodup _ _ _ Inv) Hi) as Hlen.
  destruct (reject_fields e (mkScheduler (entries st) (result st) (tasksFulfilled st)
              (promise st) (filter (λ j, j ≠ i) (inflight st)) (history st ++ [Failed i])))
    as (E1 & E2 & E3 & E4 & E5 & E6).
  cbn [entries tasksFulfilled result promise inflight history] in *.
  constructor; rewrite ?E1, ?E2, ?E3, ?E4, ?E5, ?E6, ?failures_app, ?first_failure_app;
    cbn [is_failed first_failure]; rewrite ?He.
  - apply Inv.
  - apply NoDup_filter, Inv.
  - intros j Hj. apply list_elem_of_filter in Hj as [_ Hj]. now apply Inv.
  - pose proof (inv_count _ _ _ Inv). lia.
  - pose proof (inv_bound _ _ _ Inv). lia.
  - intros H. pose proof (inv_saturated _ _ _ Inv H). lia.
  - destruct (first_failure tasks (history st)); discriminate.
  - rewrite (inv_promise _ _ _ Inv).
    destruct (first_failure tasks (history st)) as [e0|] eqn:Hff; [reflexivity|].
    destruct (Nat.eqb_spec (tasksFulfilled st) (length tasks)) as [Heq|]; [|reflexivity].
    exfalso. pose proof (inv_count _ _ _ Inv). pose proof (inv_entries _ _ _ Inv).
    lia.
  - apply Inv.
  - intros j v Hj Hnot Hv. apply (inv_result _ _ _ Inv); [exact Hj| |exact Hv].
    intros Hin. apply Hnot, list_elem_of_filter. split; [|exact Hin].
    intros ->. congruence.
  - intros HL. left.
    destruct (inv_sequential _ _ _ Inv HL) as [[Hnil _]|(k & Hk1 & Hk2 & Hk3)].
    + rewrite Hnil in Hi. now apply elem_of_nil in Hi.
    + rewrite Hk2 in Hi. apply list_elem_of_singleton in Hi as ->.
      rewrite Hk2, Hk1, Hk3, sequential_history_S.
      split.
      * rewrite filter_cons_False by (intros H; now apply H). reflexivity.
      * rewrite <- app_assoc. unfold settled_event. now rewrite He.
Qed.

Lemma invariant_fulfil L tasks st i v :
  invariant L tasks st -> i ∈ inflight st -> tasks !! i = Some (Fulfils v) ->
  invariant L tasks
    (onFulfilled tasks i v
       (mkScheduler (entries st) (result st) (tasksFulfilled st) (promise st)
          (filter (λ j, j ≠ i) (inflight st)) (history st ++ [Fulfilled i]))).
Proof.
  intros Inv Hi Hv.
  pose proof (length_filter_ne _ _ (inv_nodup _ _ _ Inv) Hi) as Hlen.
  pose proof (inv_count _ _ _ Inv) as Hcount.
  pose proof (inv_entries _ _ _ Inv) as Hentries.
  pose proof (inv_bound _ _ _ Inv) as Hbound.
  pose proof (inv_started _ _ _ Inv i Hi) as Hstarted.
  pose proof (inv_length _ _ _ Inv) as Hlength.
  assert (forall j w, j < entries st -> j ∉ filter (λ j, j ≠ i) (inflight st) ->
            tasks !! j = Some (Fulfils w) ->
            array_set (result st) i v !! j = Some (Some w)) as Hresult.
  { intros j w Hj Hnot Hw. destruct (decide (j = i)) as [->|Hne].
    - rewrite array_set_eq. congruence.
    - apply array_set_keeps; [|exact Hne].
      apply (inv_result _ _ _ Inv); [exact Hj| |exact Hw].
      intros Hin. apply Hnot, list_elem_of_filter. now split. }
  assert (promise st =
          match first_failure tasks (history st) with
          | Some e => Rejected e
          | None => Pending
          end) as Hpromise.
  { rewrite (inv_promise _ _ _ Inv).
    destruct (first_failure tasks (history st)); [reflexivity|].
    destruct (Nat.eqb_spec (tasksFulfilled st) (length tasks)); [lia|reflexivity]. }
  unfold onFulfilled, next.
  cbn [entries tasksFulfilled result promise inflight history].
  destruct (tasks !! entries st) as [o|] eqn:Hnext.
  - apply lookup_lt_Some in Hnext.
    constructor; cbn [entries tasksFulfilled result promise inflight history];
      rewrite ?length_app, ?failures_app, ?first_failure_app;
      cbn [is_failed first_failure length].
    + lia.
    + apply NoDup_app. split; [apply NoDup_filter, Inv|]. split; [|apply NoDup_singleton].
      intros j Hj Hj'. apply list_elem_of_singleton in Hj' as ->.
      apply list_elem_of_filter in Hj as [_ Hj].
      pose proof (inv_started _ _ _ Inv _ Hj). lia.
    + intros j Hj. apply elem_of_app in Hj as [Hj|Hj].
      * apply list_elem_of_filter in Hj as [_ Hj].
        pose proof (inv_started _ _ _ Inv _ Hj). lia.
      * apply list_elem_of_singleton in Hj as ->. lia.
    + lia.
    + lia.
    + intros _. pose proof (inv_saturated _ _ _ Inv Hnext). lia.
    + destruct (first_failure tasks (history st)) eqn:Hff; [discriminate|].
      intros _. pose proof (inv_failed _ _ _ Inv Hff). lia.
    + rewrite Hpromise.
      destruct (first_failure tasks (history st)); [reflexivity|].
      destruct (Nat.eqb_spec (tasksFulfilled st + 1) (length tasks)); [lia|reflexivity].
    + rewrite array_set_length. lia.
    + intros j w Hj Hnot Hw.
      assert (j ≠ entries st) as Hne.
      { intros ->. apply Hnot, elem_of_app. right. now apply list_elem_of_singleton. }
      apply Hresult; [lia| |exact Hw].
      intros Hin. apply Hnot, elem_of_app. now left.
    + intros HL. right.
      destruct (inv_sequential _ _ _ Inv HL) as [[Hnil _]|(k & Hk1 & Hk2 & Hk3)].
      * rewrite Hnil in Hi. now apply elem_of_nil in Hi.
      * rewrite Hk2 in Hi. apply list_elem_of_singleton in Hi as ->.
        exists (S k). rewrite Hk1, Hk2, Hk3, sequential_history_S.
        rewrite filter_cons_False by (intros H; now apply H).
        repeat split. rewrite <- !app_assoc. unfold settled_event. now rewrite Hv.
  - apply lookup_ge_None in Hnext.
    set (st2 := mkScheduler (entries st) (array_set (result st) i v)
                  (tasksFulfilled st + 1) (promise st)
                  (filter (λ j, j ≠ i) (inflight st)) (history st ++ [Fulfilled i])).
    destruct (resolve_fields st2) as (E1 & E2 & E3 & E4 & E5 & E6).
    assert (forall st3, (st3 = resolve st2 \/ st3 = st2) ->
              (tasksFulfilled st2 =? length tasks)%nat = true \/ st3 = st2 ->
              (st3 = resolve st2 \/ (tasksFulfilled st2 =? length tasks)%nat = false) ->
              invariant L tasks st3) as Hboth.
    { intros st3 Hst3 Hres Hres'.
      assert (entries st3 = entries st2 /\ result st3 = result st2 /\
              tasksFulfilled st3 = tasksFulfilled st2 /\
              inflight st3 = inflight st2 /\ history st3 = history st2)
        as (F1 & F2 & F3 & F4 & F5).
      { destruct Hst3 as [->| ->]; [now rewrite E1, E2, E3, E4, E5 | now repeat split]. }
      constructor; rewrite ?F1, ?F2, ?F3, ?F4, ?F5;
        cbn [st2 entries tasksFulfilled result promise inflight history];
        rewrite ?length_app, ?failures_app, ?first_failure_app;
        cbn [is_failed first_failure length].
      + lia.
      + apply NoDup_filter, Inv.
      + intros j Hj. apply list_elem_of_filter in Hj as [_ Hj]. now apply Inv.
      + lia.
      + lia.
      + lia.
      + destruct (first_failure tasks (history st)) eqn:Hff; [discriminate|].
        intros _. pose proof (inv_failed _ _ _ Inv Hff). lia.
      + cbn [st2 tasksFulfilled] in Hres, Hres'.
        destruct (Nat.eqb_spec (tasksFulfilled st + 1) (length tasks)) as [Heq|Hne].
        * destruct Hres' as [->|]; [|discriminate].
          rewrite E6. cbn [st2 promise]. rewrite Hpromise.
          now destruct (first_failure tasks (history st)).
        * destruct Hres as [Hres | ->]; [discriminate|].
          cbn [st2 promise]. rewrite Hpromise.
          now destruct (first_failure tasks (history st)).
      + rewrite array_set_length. lia.
      + intros j w Hj Hnot Hw. now apply Hresult.
      + intros HL. left.
        destruct (inv_sequential _ _ _ Inv HL) as [[Hnil _]|(k & Hk1 & Hk2 & Hk3)].
        * rewrite Hnil in Hi. now apply elem_of_nil in Hi.
        * rewrite Hk2 in Hi. apply list_elem_of_singleton in Hi as ->.
          rewrite Hk1, Hk2, Hk3, sequential_history_S.
          rewrite filter_cons_False by (intros H; now apply H).
          split; [reflexivity|]. rewrite <- app_assoc. unfold settled_event.
          now rewrite Hv. }
    fold st2. cbn [st2 tasksFulfilled] in *.
    destruct (Nat.eqb_spec (tasksFulfilled st + 1) (length tasks)).
    + apply Hboth; [now left | now left | now left].
    + apply Hboth; [now right | now right | now right].
Qed.

Lemma invariant_settle L tasks st i st' :
  invariant L tasks st -> settle tasks i st = Some st' -> invariant L tasks st'.
Proof.
  intros Inv Hs. apply settle_inv in Hs as (Hi & [(v & Hv & ->)|(e & He & ->)]).
  - now apply invariant_fulfil.
  - now apply invariant_reject.
Qed.

Lemma invariant_run L tasks schedule st st' :
  invariant L tasks st -> run tasks schedule st = Some st' -> invariant L tasks st'.
Proof.
  revert st. induction schedule as [|i rest IH]; intros st Inv; simpl.
  - now intros [= <-].
  - destruct (settle tasks i st) as [st1|] eqn:Hs; [|discriminate].
    apply IH. eapply invariant_settle; eassumption.
Qed.

Lemma reachable_invariant (limit : Z) tasks st :
  reachable limit tasks st -> invariant (Z.to_nat limit) tasks st.
Proof.
  intros (st0 & schedule & Hstart & Hrun). unfold throttleAll in Hstart.
  destruct (Z.ltb_spec limit 1); [discriminate|]. injection Hstart as <-.
  eapply invariant_run; [|exact Hrun]. apply invariant_start. lia.
Qed.

(** Each event settles one task. *)
Lemma settle_counts tasks i st st' :
  settle tasks i st = Some st' ->
  tasksFulfilled st' + failures (history st') =
  S (tasksFulfilled st + failures (history st)).
Proof.
  intros Hs. apply settle_inv in Hs as (_ & [(v & _ & ->)|(e & _ & ->)]).
  - unfold onFulfilled, next.
    cbn [entries tasksFulfilled result promise inflight history].
    destruct (tasks !! entries st).
    + cbn [tasksFulfilled history]. rewrite !failures_app. simpl. lia.
    + match goal with |- context [resolve ?s] =>
        destruct (resolve_fields s) as (_ & _ & E3 & _ & E5 & _) end.
      destruct (_ =? _)%nat; rewrite ?E3, ?E5;
        cbn [tasksFulfilled history]; rewrite failures_app; simpl; lia.
  - match goal with |- context [reject e ?s] =>
      destruct (reject_fields e s) as (_ & _ & E3 & _ & E5 & _) end.
    rewrite E3, E5. cbn [tasksFulfilled history]. rewrite failures_app. simpl. lia.
Qed.

Lemma run_counts tasks schedule st st' :
  run tasks schedule st = Some st' ->
  tasksFulfilled st' + failures (history st') =
  tasksFulfilled st + failures (history st) + length schedule.
Proof.
  revert st. induction schedule as [|i rest IH]; intros st; simpl.
  - intros [= <-]. lia.
  - destruct (settle tasks i st) as [st1|] eqn:Hs; [|discriminate].
    intros Hrun. rewrite (IH _ Hrun), (settle_counts _ _ _ _ Hs). lia.
Qed.

(** A task in flight can settle. *)
Lemma inflight_can_settle L tasks st i :
  invariant L tasks st -> i ∈ inflight st -> is_Some (settle tasks i st).
Proof.
  intros Inv Hi. unfold settle. rewrite bool_decide_eq_true_2 by exact Hi.
  pose proof (inv_started _ _ _ Inv i Hi). pose proof (inv_entries _ _ _ Inv).
  destruct (lookup_lt_is_Some_2 tasks i) as [[v|e] ->]; [lia|eauto..].
Qed.

Lemma first_failure_fulfils (values : list T) h :
  first_failure (Fulfils <$> values : list (Outcome T E)) h = None.
Proof.
  induction h as [|[i|i|i] h IH]; simpl; try assumption; [reflexivity|].
  rewrite list_lookup_fmap. now destruct (values !! i).
Qed.

(** C1. For every positive integer [limit] and every list of tasks that
    all succeed, task [i] with the value [values !! i]: [throttleAll]
    starts; whatever the order in which the tasks complete, no task in
    flight is stuck, the promise is pending with a task in flight as long
    as fewer than [n] tasks have completed, and once [n] have, nothing is
    in flight and the promise is resolved with the array of the [n]
    values in input order.  For an empty list it is resolved with the
    empty array when the executor ends. *)
Theorem throttleAll_resolves_in_order (limit : Z) (values : list T) :
  (1 <= limit)%Z ->
  exists st0,
    throttleAll (IntegerNumber limit) (Fulfils <$> values : list (Outcome T E)) = Return st0 /\
    (values = [] -> promise st0 = Resolved /\ result st0 = []) /\
    forall schedule st,
      run (Fulfils <$> values) schedule st0 = Some st ->
      length schedule <= length values /\
      (forall i, i ∈ inflight st -> is_Some (settle (Fulfils <$> values) i st)) /\
      (length schedule < length values ->
       inflight st <> [] /\ promise st = Pending) /\
      (length schedule = length values ->
       inflight st = [] /\ promise st = Resolved /\ result st = Some <$> values).
Proof.
  intros Hlimit. unfold throttleAll.
  destruct (Z.ltb_spec limit 1); [lia|].
  eexists. split; [reflexivity|].
  pose proof (invariant_start (Fulfils <$> values : list (Outcome T E))
                (Z.to_nat limit) ltac:(lia)) as Inv0.
  split.
  { intros ->. rewrite executor_calls. simpl.
    destruct (Nat.ltb_spec 0 (Z.to_nat limit)); [|lia].
    now split. }
  intros schedule st Hrun.
  pose proof (invariant_run _ _ _ _ _ Inv0 Hrun) as Inv.
  pose proof (run_counts _ _ _ _ Hrun) as Hcounts.
  rewrite executor_calls in Hcounts.
  cbn [tasksFulfilled history] in Hcounts. rewrite failures_started in Hcounts.
  pose proof (inv_failed _ _ _ Inv (first_failure_fulfils _ _)) as Hnone.
  pose proof (inv_count _ _ _ Inv) as Hcount.
  pose proof (inv_entries _ _ _ Inv) as Hentries.
  pose proof (inv_saturated _ _ _ Inv) as Hsat.
  pose proof (inv_promise _ _ _ Inv) as Hpromise.
  rewrite first_failure_fulfils in Hpromise.
  rewrite length_fmap in *.
  assert (tasksFulfilled st = length schedule) as Htf by lia.
  split; [lia|]. split; [intros i; now apply (inflight_can_settle _ _ _ _ Inv)|].
  split.
  - intros Hlt. split.
    + intros Hnil. rewrite Hnil in *. simpl in *.
      destruct (decide (entries st < length values)) as [Hx|Hx]; [|lia].
      specialize (Hsat Hx). lia.
    + rewrite Hpromise. destruct (Nat.eqb_spec (tasksFulfilled st) (length values)); [lia|].
      reflexivity.
  - intros Heq.
    assert (inflight st = []) as Hnil by (apply length_zero_iff_nil; lia).
    split; [exact Hnil|]. split.
    + rewrite Hpromise.
      destruct (Nat.eqb_spec (tasksFulfilled st) (length values)); [reflexivity|lia].
    + apply list_eq. intros j. rewrite list_lookup_fmap.
      destruct (values !! j) as [v|] eqn:Hj; simpl.
      * apply (inv_result _ _ _ Inv).
        -- apply lookup_lt_Some in Hj. rewrite Hnil in Hcount. simpl in Hcount. lia.
        -- rewrite Hnil. apply not_elem_of_nil.
        -- rewrite list_lookup_fmap, Hj. reflexivity.
      * apply lookup_ge_None in Hj. apply lookup_ge_None.
        pose proof (inv_length _ _ _ Inv). lia.
Qed.

(** C2, as far as the code goes.  In every state [throttleAll] can be in,
    at most [limit] tasks are in flight; while the task list is not
    exhausted, the tasks in flight and the tasks that have failed are
    [limit] together, so exactly [limit] are in flight as long as none
    has failed; and for [limit = 1] the history is that of a strictly
    sequential run in input order, task [k] starting after the tasks
    before it have completed. *)
Theorem throttleAll_concurrency (limit : Z) tasks st :
  reachable limit tasks st ->
  length (inflight st) <= Z.to_nat limit /\
  (entries st < length tasks ->
   length (inflight st) + failures (history st) = Z.to_nat limit) /\
  (entries st < length tasks -> first_failure tasks (history st) = None ->
   length (inflight st) = Z.to_nat limit) /\
  (limit = 1%Z ->
   exists k,
     entries st = k /\ inflight st = [] /\ history st = sequential_history tasks k \/
     entries st = S k /\ inflight st = [k] /\
     history st = sequential_history tasks k ++ [Started k]).
Proof.
  intros Hreach. apply reachable_invariant in Hreach as Inv.
  pose proof (inv_bound _ _ _ Inv). split; [lia|].
  split; [apply Inv|]. split.
  - intros Hlt Hnone. pose proof (inv_saturated _ _ _ Inv Hlt).
    pose proof (inv_failed _ _ _ Inv Hnone). lia.
  - intros ->. destruct (inv_sequential _ _ _ Inv eq_refl) as [[H1 H2]|(k & H1 & H2 & H3)].
    + exists (entries st). now left.
    + exists k. now right.
Qed.

(** C3. In every state [throttleAll] can be in, if a task has failed the
    promise is rejected with the failure of the first task that failed;
    and at the event where the first failure happens the promise is
    rejected with it at once, while the other tasks in flight stay in
    flight and can still settle. *)
Theorem throttleAll_rejects_with_first_failure (limit : Z) tasks st :
  reachable limit tasks st ->
  (forall e, first_failure tasks (history st) = Some e -> promise st = Rejected e) /\
  (forall i e st',
     first_failure tasks (history st) = None ->
     tasks !! i = Some (Rejects e) ->
     settle tasks i st = Some st' ->
     promise st' = Rejected e /\
     first_failure tasks (history st') = Some e /\
     inflight st' = filter (λ j, j ≠ i) (inflight st) /\
     forall j, j ∈ inflight st' -> is_Some (settle tasks j st')).
Proof.
  intros Hreach. apply reachable_invariant in Hreach as Inv. split.
  - intros e He. rewrite (inv_promise _ _ _ Inv), He. reflexivity.
  - intros i e st' Hnone He Hs.
    pose proof (invariant_settle _ _ _ _ _ Inv Hs) as Inv'.
    apply settle_inv in Hs as (Hi & [(v & Hv & _)|(e' & He' & ->)]); [congruence|].
    assert (e' = e) as -> by congruence.
    match goal with |- context [reject e ?s] =>
      destruct (reject_fields e s) as (_ & _ & _ & E4 & E5 & _) end.
    assert (first_failure tasks
              (history (reject e (mkScheduler (entries st) (result st)
                 (tasksFulfilled st) (promise st)
                 (filter (λ j, j ≠ i) (inflight st)) (history st ++ [Failed i]))))
            = Some e) as Hff.
    { rewrite E5. cbn [history]. rewrite first_failure_app, Hnone. simpl.
      now rewrite He. }
    split; [now rewrite (inv_promise _ _ _ Inv'), Hff|].
    split; [exact Hff|]. split; [now rewrite E4|].
    intros j. now apply (inflight_can_settle _ _ _ _ Inv').
Qed.
End ThrottleFacts.

Lemma after_reachable {T E} (limit : Z) (tasks : list (Outcome T E))
    (schedule : list nat) (st : Scheduler T E) :
  after limit tasks schedule = Some st -> reachable limit tasks st.
Proof.
  unfold after, reachable. destruct (throttleAll _ tasks) as [error|st0]; [discriminate|].
  intros Hrun. now exists st0, schedule.
Qed.

(** Two at a time, the second task completing first: the results are in
    input order. *)
Lemma throttleAll_resolves_in_order_witness :
  (1 <= 2)%Z /\
  exists st0 st : Scheduler nat string,
    throttleAll (IntegerNumber 2) (Fulfils <$> [10; 20; 30]) = Return st0 /\
    run (Fulfils <$> [10; 20; 30]) [1; 0; 2] st0 = Some st /\
    inflight st = [] /\ promise st = Resolved /\ result st = Some <$> [10; 20; 30].
Proof.
  split; [lia|].
  destruct (@throttleAll_resolves_in_order nat string 2 [10; 20; 30] ltac:(lia))
    as (st0 & Hstart & _ & Hrun).
  exists st0.
  assert (is_Some (run (Fulfils <$> [10; 20; 30]) [1; 0; 2] st0)) as [st Hst].
  { injection Hstart as <-. vm_compute. eauto. }
  exists st. split; [exact Hstart|]. split; [exact Hst|].
  destruct (Hrun [1; 0; 2] st Hst) as (_ & _ & _ & Hdone). now apply Hdone.
Defined.

(** With a task that has failed, a slot stays empty although a task is
    left to start. *)
Lemma failed_task_is_not_replaced :
  exists st : Scheduler nat string,
    reachable 2 first_fails st /\
    entries st < length first_fails /\ length (inflight st) < Z.to_nat 2.
Proof.
  exists (mkScheduler 2 [] 0 (Rejected "boom") [1] [Started 0; Started 1; Failed 0]).
  split; [now apply (after_reachable 2 first_fails [0])|]. simpl. lia.
Qed.

Lemma throttleAll_concurrency_witness :
  reachable 2 first_fails
    (mkScheduler 2 [] 0 (Rejected "boom") [1] [Started 0; Started 1; Failed 0]) /\
  length [1] <= Z.to_nat 2 /\
  length [1] + failures [Started 0; Started 1; Failed 0] = Z.to_nat 2.
Proof.
  pose proof (after_reachable 2 first_fails [0] _ eq_refl) as Hreach.
  split; [exact Hreach|].
  destruct (throttleAll_concurrency 2 first_fails _ Hreach) as (Hbound & Hsaturated & _).
  split; [exact Hbound | apply Hsaturated; simpl; lia].
Defined.

(** Three tasks, two at a time; the task at index 1 rejects with ["boom"]
    while the task at index 0 is in flight. *)
Lemma throttleAll_rejects_with_first_failure_witness :
  reachable 2 second_fails (mkScheduler 2 [] 0 Pending [0; 1] [Started 0; Started 1]) /\
  exists st' : Scheduler nat string,
    settle second_fails 1 (mkScheduler 2 [] 0 Pending [0; 1] [Started 0; Started 1])
    = Some st' /\
    promise st' = Rejected "boom" /\ inflight st' = [0] /\
    is_Some (settle second_fails 0 st').
Proof.
  pose proof (after_reachable 2 second_fails [] _ eq_refl) as Hreach.
  split; [exact Hreach|].
  destruct (throttleAll_rejects_with_first_failure 2 second_fails _ Hreach) as [_ Hfirst].
  eexists. split; [reflexivity|].
  destruct (Hfirst 1 "boom" _ eq_refl eq_refl eq_refl) as (Hpromise & _ & Hinflight & Hlive).
  split; [exact Hpromise|]. split; [exact Hinflight|].
  apply Hlive. rewrite Hinflight. apply list_elem_of_singleton. reflexivity.
Defined.

(** ** The monad of the adapters *)

Lemma bind_Return {A B} (m : M A) (k : A -> M B) (w : World) (b : B) (w' : World) :
  bind m k w = (Return b, w') ->
  exists a w1, m w = (Return a, w1) /\ k a w1 = (Return b, w').
Proof. unfold bind. destruct (m w) as [[e|a] w1]; [discriminate|]. eauto. Qed.

Lemma bind_returns {A B} (m : M A) (k : A -> M B) (w : World) (a : A) (w1 : World) :
  m w = (Return a, w1) -> bind m k w = k a w1.
Proof. intros H. unfold bind. now rewrite H. Qed.


Lemma lift_Return {A} (c : Completion A) (w : World) (a : A) (w' : World) :
  lift c w = (Return a, w') -> c = Return a /\ w' = w.
Proof. unfold lift. now intros [= -> ->]. Qed.

Lemma call_Return {A} (r : string + A) (w : World) (a : A) (w' : World) :
  call r w = (Return a, w') -> r = inr a /\ w' = w.
Proof. destruct r as [m|x]; unfold call, throw, ret; [discriminate|]. now intros [= -> ->]. Qed.

Lemma push_run (array : nat) (x : string) (w : World) (a : list string) :
  arrays w !! array = Some a ->
  push array x w =
  (Return tt, mkWorld (<[array := a ++ [x]]> (arrays w)) (pool w) (open_pools w)).
Proof. intros H. unfold push. now rewrite H. Qed.

Lemma push_then_None (array : nat) (x : string) (w : World) (a : list string) :
  arrays w !! array = Some a ->
  (let* _ := push array x in ret (@None WorkerResult)) w =
  (Return None, mkWorld (<[array := a ++ [x]]> (arrays w)) (pool w) (open_pools w)).
Proof. intros H. now rewrite (bind_returns _ _ _ _ _ (push_run _ x _ _ H)). Qed.


Lemma spread_copy_Return (array : nat) (w : World) (copy : nat) (w' : World) :
  spread_copy array w = (Return copy, w') ->
  exists a, arrays w !! array = Some a /\ copy = length (arrays w) /\
            w' = mkWorld (arrays w ++ [a]) (pool w) (open_pools w).
Proof.
  unfold spread_copy. destruct (arrays w !! array) as [a|]; [|discriminate].
  intros [= <- <-]. now exists a.
Qed.

(** *** Computations that keep the arrays *)

Lemma keeps_arrays_ret {A} (a : A) : keeps_arrays (ret a).
Proof. intros w b w'. unfold ret. now intros [= _ ->]. Qed.

Lemma keeps_arrays_call {A} (r : string + A) : keeps_arrays (call r).
Proof. intros w a w' H. now apply call_Return in H as [_ ->]. Qed.

Lemma keeps_arrays_lift {A} (c : Completion A) : keeps_arrays (lift c).
Proof. intros w a w' H. now apply lift_Return in H as [_ ->]. Qed.

Lemma keeps_arrays_bind {A B} (m : M A) (k : A -> M B) :
  keeps_arrays m -> (forall a, keeps_arrays (k a)) -> keeps_arrays (bind m k).
Proof.
  intros Hm Hk w b w' H. apply bind_Return in H as (a & w1 & H1 & H2).
  rewrite (Hk _ _ _ _ H2). exact (Hm _ _ _ H1).
Qed.

Lemma keeps_arrays_get_pool : keeps_arrays get_pool.
Proof. intros w a w'. unfold get_pool. now intros [= _ ->]. Qed.

Lemma keeps_arrays_set_pool (b : bool) : keeps_arrays (set_pool b).
Proof. intros w a w'. unfold set_pool. now intros [= _ <-]. Qed.

Lemma keeps_arrays_create : keeps_arrays squooshImagePoolCreate.
Proof. intros w a w'. unfold squooshImagePoolCreate. now intros [= _ <-]. Qed.

Lemma keeps_arrays_close : keeps_arrays imagePool_close.
Proof. intros w a w'. unfold imagePool_close. now intros [= _ <-]. Qed.

Create HintDb keeps.

#[local] Hint Resolve keeps_arrays_ret keeps_arrays_call keeps_arrays_lift
  keeps_arrays_bind keeps_arrays_get_pool keeps_arrays_set_pool
  keeps_arrays_create keeps_arrays_close : keeps.

#[local] Hint Extern 1 (keeps_arrays (if ?b then _ else _)) => destruct b : keeps.

#[local] Hint Extern 1 (keeps_arrays (match ?x with _ => _ end)) => destruct x : keeps.


(** *** The end of every successful call

    The two arrays are copied, the provenance list is read, and the new
    item is built. *)


Lemma build_item_run (original : WorkerResult) (name : string) (bytes : list byte)
    (key : string) (mk : list string -> gmap string InfoValue)
    (w : World) (ws es old : list string) :
  arrays w !! warnings original = Some ws ->
  arrays w !! errors original = Some es ->
  processedBy_of (info original) key = Return old ->
  (let* warnings' := spread_copy (warnings original) in
   let* errors' := spread_copy (errors original) in
   let* by_ := lift (processedBy_of (info original) key) in
   ret (Some (mkWorkerResult name bytes warnings' errors' (mk by_)))) w =
  (Return (Some (mkWorkerResult name bytes (length (arrays w)) (S (length (arrays w)))
                   (mk old))),
   mkWorld (arrays w ++ [ws; es]) (pool w) (open_pools w)).
Proof.
  intros Hws Hes Hold. unfold bind, spread_copy, lift, ret.
  rewrite Hws. cbn [arrays pool open_pools].
  rewrite lookup_app_l by (eapply lookup_lt_Some, Hes). rewrite Hes, Hold.
  cbn [arrays pool open_pools].
  rewrite length_app, <- app_assoc. simpl. now rewrite Nat.add_1_r.
Qed.



(** ** A successful call carries the original forward *)









(** ** imagemin: the check of the output format *)

(** What the sniffer answers has an extension. *)
Lemma sniff_ext_nonempty (buffer : list byte) (t : FileType) :
  sniff buffer = Some t -> ext t <> EmptyString.
Proof.
  unfold sniff, ftyp_brand, png_or_apng. intros H.
  repeat match type of H with
         | (if ?c then _ else _) = _ => destruct c
         | match (if ?c then _ else _) with _ => _ end = _ => destruct c
         end;
    try (injection H as <-; discriminate); try discriminate.
  injection H as <-. now destruct (_ <=? _)%Z.
Qed.

Lemma fileTypeFromBuffer_ext_nonempty (input : SnifferInput) (t : FileType) :
  fileTypeFromBuffer input = Return (Some t) -> ext t <> EmptyString.
Proof.
  destruct input as [b|b|b|]; unfold fileTypeFromBuffer; try discriminate;
    (destruct (negb _); [discriminate|]); intros [= H]; exact (sniff_ext_nonempty _ _ H).
Qed.

Lemma ext_differs_true (t : FileType) (input : SnifferInput) (extInput : string) :
  fileTypeFromBuffer input = Return (Some t) -> ext t <> extInput ->
  ext_differs (Some (ext t)) extInput = true.
Proof.
  intros Hsniff Hne. unfold ext_differs.
  apply fileTypeFromBuffer_ext_nonempty in Hsniff.
  destruct (String.eqb_spec (ext t) EmptyString); [contradiction|].
  destruct (String.eqb_spec extInput (ext t)); [congruence|reflexivity].
Qed.

(** A filename that [isAbsoluteURL] rejects and an output of another
    format: one warning on the array of warnings, and [null]. *)
Lemma imageminMinify_refuses (host : Host) (lib : ImageminLib) (original : WorkerResult)
    (options : option ImageminOptions) (w : World) (loaded : list (Plugin lib))
    (result : list byte) (t : FileType) (ws : list string) :
  imageminNormalizeConfig lib (Some (default (mkImageminOptions None) options))
    = Return loaded ->
  imagemin_buffer lib (data original) loaded = inr result ->
  fileTypeFromBuffer (Uint8Array result) = Return (Some t) ->
  ext t <> input_ext host original ->
  isAbsoluteURL (filename original) = false ->
  arrays w !! warnings original = Some ws ->
  imageminMinify host lib original options w =
  (Return None,
   mkWorld (<[warnings original := ws ++ [imageminMinify_warning (ext t) original]]> (arrays w))
           (pool w) (open_pools w)).
Proof.
  intros Hconfig Hbuffer Hsniff Hne Hlocal Hws. unfold imageminMinify.
  rewrite Hconfig. cbn [bind lift ret call]. rewrite Hbuffer, Hlocal. cbn [negb].
  unfold sniffed_ext. rewrite Hsniff. cbn [fmap option_fmap option_map].
  cbn [bind lift ret call].
  rewrite (ext_differs_true _ _ _ Hsniff Hne).
  now apply push_then_None.
Qed.

(** A filename that [isAbsoluteURL] accepts: no check, whatever the output
    is. *)
Lemma imageminMinify_accepts (host : Host) (lib : ImageminLib) (original : WorkerResult)
    (options : option ImageminOptions) (w : World) (loaded : list (Plugin lib))
    (result : list byte) (ws es old : list string) :
  imageminNormalizeConfig lib (Some (default (mkImageminOptions None) options))
    = Return loaded ->
  imagemin_buffer lib (data original) loaded = inr result ->
  isAbsoluteURL (filename original) = true ->
  arrays w !! warnings original = Some ws ->
  arrays w !! errors original = Some es ->
  processedBy_of (info original) "minimizedBy" = Return old ->
  imageminMinify host lib original options w =
  (Return (Some (mkWorkerResult (filename original) result
                   (length (arrays w)) (S (length (arrays w)))
                   (<["minimizedBy" := VStrings ("imagemin" :: old)]>
                      (<["minimized" := VBool true]> (info original))))),
   mkWorld (arrays w ++ [ws; es]) (pool w) (open_pools w)).
Proof.
  intros Hconfig Hbuffer Habs Hws Hes Hold. unfold imageminMinify.
  rewrite Hconfig. cbn [bind lift ret call]. rewrite Hbuffer, Habs.
  cbn [negb bind lift ret call].
  exact (build_item_run original _ _ "minimizedBy"
           (fun old => <["minimizedBy" := VStrings ("imagemin" :: old)]>
                         (<["minimized" := VBool true]> (info original)))
           w ws es old Hws Hes Hold).
Qed.

(** C5, as far as the code goes.  [imagemin] has re-encoded the data of a
    work item into bytes that sniff to another extension than that of the
    filename.  If [isAbsoluteURL] rejects the filename, [imageminMinify]
    returns [null] and pushes one warning, on the array of warnings, and
    nothing else changes.  If [isAbsoluteURL] accepts the filename (a URL
    with a scheme, but also a local path that starts with [/] or with a
    drive), the check is skipped: the re-encoded bytes are returned under
    the same filename and no warning is pushed. *)
Theorem imageminMinify_format_mismatch (host : Host) (lib : ImageminLib)
    (original : WorkerResult) (options : option ImageminOptions) (w : World)
    (loaded : list (Plugin lib)) (result : list byte) (t : FileType)
    (ws es old : list string) :
  imageminNormalizeConfig lib (Some (default (mkImageminOptions None) options))
    = Return loaded ->
  imagemin_buffer lib (data original) loaded = inr result ->
  fileTypeFromBuffer (Uint8Array result) = Return (Some t) ->
  ext t <> input_ext host original ->
  arrays w !! warnings original = Some ws ->
  arrays w !! errors original = Some es ->
  processedBy_of (info original) "minimizedBy" = Return old ->
  (isAbsoluteURL (filename original) = false ->
   imageminMinify host lib original options w =
   (Return None,
    mkWorld (<[warnings original := ws ++ [imageminMinify_warning (ext t) original]]>
               (arrays w))
            (pool w) (open_pools w))) /\
  (isAbsoluteURL (filename original) = true ->
   imageminMinify host lib original options w =
   (Return (Some (mkWorkerResult (filename original) result
                    (length (arrays w)) (S (length (arrays w)))
                    (<["minimizedBy" := VStrings ("imagemin" :: old)]>
                       (<["minimized" := VBool true]> (info original))))),
    mkWorld (arrays w ++ [ws; es]) (pool w) (open_pools w))).
Proof.
  intros Hconfig Hbuffer Hsniff Hne Hws Hes Hold. split; intros Habs.
  - exact (imageminMinify_refuses _ _ _ _ _ _ _ _ _ Hconfig Hbuffer Hsniff Hne Habs Hws).
  - exact (imageminMinify_accepts _ _ _ _ _ _ _ _ _ _ Hconfig Hbuffer Habs Hws Hes Hold).
Qed.


(** ** sharp *)








(** ** squoosh *)



(** ** The adapters on examples *)




(** A relative filename: the output in another format is refused with a
    warning. *)
Lemma imageminMinify_format_mismatch_witness :
  fileTypeFromBuffer (Uint8Array webp_bytes) = Return (Some webp) /\
  ext webp <> input_ext posix_host (item "a/b.png" ∅) /\
  isAbsoluteURL "a/b.png" = false /\
  imageminMinify posix_host webp_imagemin (item "a/b.png" ∅) webp_plugin_options fresh_world =
  (Return None,
   mkWorld [[imageminMinify_warning "webp" (item "a/b.png" ∅)]; []] false 0).
Proof.
  assert (ext webp <> input_ext posix_host (item "a/b.png" ∅)) as Hne
    by (vm_compute; discriminate).
  split; [reflexivity|]. split; [exact Hne|]. split; [reflexivity|].
  exact (proj1 (imageminMinify_format_mismatch posix_host webp_imagemin (item "a/b.png" ∅)
                  webp_plugin_options fresh_world [tt] webp_bytes webp [] [] []
                  eq_refl eq_refl eq_refl Hne eq_refl eq_refl eq_refl) eq_refl).
Defined.

(** A local file under an absolute path: the output in another format is
    accepted, and no warning is pushed. *)
Lemma imageminMinify_accepts_local_absolute_path :
  input_ext posix_host (item "/a/b.png" ∅) = "png" /\
  fileTypeFromBuffer (Uint8Array webp_bytes) = Return (Some webp) /\
  imageminMinify posix_host webp_imagemin (item "/a/b.png" ∅) webp_plugin_options fresh_world =
  (Return (Some (mkWorkerResult "/a/b.png" webp_bytes 2 3
                   (<["minimizedBy" := VStrings ["imagemin"]]>
                      (<["minimized" := VBool true]> ∅)))),
   mkWorld [[]; []; []; []] false 0).
Proof. split; [reflexivity|]. split; [reflexivity|]. vm_compute. reflexivity. Qed.




(* ===================================================================== *)
(** * Part III: further properties of the code                            *)
(* ===================================================================== *)

(** ** [replaceFileExtension] and [isAbsoluteURL] *)

(** X2. When what follows the last dot of a filename has no separator,
    [replaceFileExtension] replaces exactly that: the filename up to and
    including the last dot is kept. *)
Theorem replaceFileExtension_replaces_what_follows_the_last_dot (stem old ext : string) :
  contains is_dot old = false -> contains is_separator old = false ->
  replaceFileExtension (stem +:+ "." +:+ old) ext = stem +:+ "." +:+ ext.
Proof. exact (replaceFileExtension_last_dot stem old ext). Qed.

Lemma replaceFileExtension_replaces_what_follows_the_last_dot_witness :
  contains is_dot "gz" = false /\ contains is_separator "gz" = false /\
  replaceFileExtension ("a.b/x.tar" +:+ "." +:+ "gz") "webp" = "a.b/x.tar" +:+ "." +:+ "webp".
Proof.
  split; [reflexivity|]. split; [reflexivity|].
  apply (replaceFileExtension_replaces_what_follows_the_last_dot "a.b/x.tar" "gz" "webp");
    reflexivity.
Defined.

(** X3. Replacing the extension twice by the same extension is replacing
    it once, for an extension without dot and separator. *)
Theorem replaceFileExtension_idempotent (filename ext : string) :
  contains is_dot ext = false -> contains is_separator ext = false ->
  replaceFileExtension (replaceFileExtension filename ext) ext
  = replaceFileExtension filename ext.
Proof.
  intros Hdot Hsep. destruct (contains is_dot (last_segment filename)) eqn:Hseg.
  - destruct (last_segment_dot_split _ Hseg) as (stem & old & -> & H1 & H2).
    rewrite (replaceFileExtension_last_dot _ _ _ H1 H2).
    now apply replaceFileExtension_last_dot.
  - now rewrite !(replaceFileExtension_no_dot _ _ Hseg).
Qed.

Lemma replaceFileExtension_idempotent_witness :
  contains is_dot "webp" = false /\ contains is_separator "webp" = false /\
  replaceFileExtension (replaceFileExtension "path/img.png" "webp") "webp"
  = replaceFileExtension "path/img.png" "webp".
Proof.
  split; [reflexivity|]. split; [reflexivity|].
  apply (replaceFileExtension_idempotent "path/img.png" "webp"); reflexivity.
Defined.

Lemma scheme_rest_spec (s : string) :
  scheme_rest s = true <->
  exists scheme rest,
    s = scheme +:+ ":" +:+ rest /\
    contains (fun c => negb (is_scheme_char c)) scheme = false.
Proof.
  induction s as [|c s IH]; simpl.
  - split; [discriminate|]. intros (scheme & rest & H & _).
    destruct scheme; discriminate H.
  - destruct (Ascii.eqb_spec c ":"%char) as [->|Hc].
    + split; [|reflexivity]. intros _. exists EmptyString, s. now split.
    + destruct (is_scheme_char c) eqn:Hclass.
      * rewrite IH. split.
        -- intros (scheme & rest & -> & Hall). exists (String c scheme), rest.
           split; [reflexivity|]. simpl. now rewrite Hclass.
        -- intros (scheme & rest & H & Hall). destruct scheme as [|d scheme].
           ++ injection H as H _. contradiction.
           ++ rewrite string_app_cons in H. injection H as -> ->.
              simpl in Hall. apply orb_false_iff in Hall as [_ Hall].
              now exists scheme, rest.
      * split; [discriminate|]. intros (scheme & rest & H & Hall).
        destruct scheme as [|d scheme].
        -- injection H as H _. contradiction.
        -- rewrite string_app_cons in H. injection H as -> ->.
           simpl in Hall. now rewrite Hclass in Hall.
Qed.

(** X4. [ABSOLUTE_URL_REGEX] accepts exactly the strings that start with a
    scheme and a colon: a letter, then letters, digits, [+], [-] and [.],
    then [:]. *)
Theorem ABSOLUTE_URL_REGEX_accepts_a_scheme (url : string) :
  ABSOLUTE_URL_REGEX url = true <->
  exists c scheme rest,
    url = String c (scheme +:+ ":" +:+ rest) /\
    is_alpha c = true /\
    contains (fun d => negb (is_scheme_char d)) scheme = false.
Proof.
  destruct url as [|c s]; simpl.
  - split; [discriminate|]. now intros (c & scheme & rest & H & _).
  - rewrite andb_true_iff, scheme_rest_spec. split.
    + intros (Hc & scheme & rest & -> & Hall). now exists c, scheme, rest.
    + intros (d & scheme & rest & H & Hd & Hall). injection H as -> ->.
      split; [exact Hd|]. now exists scheme, rest.
Qed.

(** X5. In [isAbsoluteURL] the test of [WINDOWS_PATH_REGEX] adds nothing:
    a drive letter and a colon are a scheme for [ABSOLUTE_URL_REGEX]; and
    what [isAbsoluteURL] accepts starts with [/] or with a letter. *)
Theorem isAbsoluteURL_is_posix_or_scheme (url : string) :
  isAbsoluteURL url = POSIX_PATH_REGEX url || ABSOLUTE_URL_REGEX url /\
  (isAbsoluteURL url = true ->
   exists c rest, url = String c rest /\ (c = "/"%char \/ is_alpha c = true)).
Proof.
  assert (WINDOWS_PATH_REGEX url = true -> ABSOLUTE_URL_REGEX url = true) as Hwindows.
  { destruct url as [|c [|d tail]]; try discriminate. intros H.
    assert (d = ":"%char) as ->.
    { destruct d as [[] [] [] [] [] [] [] []]; first [reflexivity | discriminate H]. }
    destruct tail as [|b rest]; [discriminate H|].
    assert (b = "\"%char) as ->.
    { destruct b as [[] [] [] [] [] [] [] []]; first [reflexivity | discriminate H]. }
    cbn [WINDOWS_PATH_REGEX] in H. cbn [ABSOLUTE_URL_REGEX scheme_rest]. rewrite H.
    reflexivity. }
  assert (isAbsoluteURL url = POSIX_PATH_REGEX url || ABSOLUTE_URL_REGEX url) as Heq.
  { unfold isAbsoluteURL. destruct (WINDOWS_PATH_REGEX url) eqn:Hw; [|reflexivity].
    rewrite (Hwindows eq_refl). now rewrite !orb_true_r. }
  split; [exact Heq|]. rewrite Heq. intros H.
  destruct url as [|c rest]; [discriminate|]. exists c, rest. split; [reflexivity|].
  apply orb_true_iff in H as [H|H].
  - left. simpl in H. destruct c as [[] [] [] [] [] [] [] []]; try discriminate H; reflexivity.
  - right. simpl in H. now apply andb_true_iff in H as [H _].
Qed.

(** ** [fileTypeFromBuffer] *)

Lemma check_loop_spec (buffer header : list byte) (off i : nat) :
  check_loop buffer (mkCheckOptions off None) header i = true <->
  take (length header) (drop (i + off) buffer) = header.
Proof.
  revert i. induction header as [|h header IH]; intros i; cbn [check_loop length mask offset].
  - now rewrite take_0.
  - unfold byte_is. destruct (buffer !! (i + off)) as [x|] eqn:Hx.
    + rewrite (drop_S _ _ _ Hx). cbn [take].
      destruct (Byte.eqb x h) eqn:Hxh; cbn [negb].
      * apply Byte.byte_dec_bl in Hxh as ->. rewrite (IH (S i)).
        replace (S i + off) with (S (i + off)) by lia.
        split; [now intros -> | now intros [= ->]].
      * split; [discriminate|]. intros [= -> _].
        now rewrite (Byte.byte_dec_lb eq_refl) in Hxh.
    + cbn [negb]. rewrite drop_ge by (now apply lookup_ge_None). rewrite take_nil.
      split; discriminate.
Qed.

(** X6. Without a mask, [check] compares the header with the bytes of the
    buffer from [offset] on, and a header that reaches past the end of the
    buffer does not match. *)
Theorem check_compares_the_bytes_at_offset (buffer header : list byte) (off : nat) :
  check buffer header (mkCheckOptions off None) = true <->
  take (length header) (drop off buffer) = header.
Proof. unfold check. now rewrite check_loop_spec. Qed.

Lemma sniff_known (buffer : list byte) (t : FileType) :
  sniff buffer = Some t -> t ∈ KNOWN_TYPES.
Proof.
  unfold sniff, ftyp_brand, png_or_apng. intros H.
  repeat match type of H with
         | (if ?c then _ else _) = _ => destruct c
         | match (if ?c then _ else _) with _ => _ end = _ => destruct c
         | Some (if ?c then _ else _) = _ => destruct c
         end;
    try discriminate; injection H as <-; unfold KNOWN_TYPES, png, apng, webp;
    repeat first [apply list_elem_of_here | apply list_elem_of_further].
Qed.

(** X7. Whatever the bytes, an answer of the sniffer is one of the 31
    types of its rules, each an image type with an extension. *)
Theorem fileTypeFromBuffer_answers_a_known_type (input : SnifferInput) (t : FileType) :
  fileTypeFromBuffer input = Return (Some t) ->
  t ∈ KNOWN_TYPES /\ ext t <> EmptyString /\ String.prefix "image/" (mime t) = true.
Proof.
  intros H.
  assert (t ∈ KNOWN_TYPES) as Hknown.
  { destruct input as [b|b|b|]; unfold fileTypeFromBuffer in H; try discriminate;
      (destruct (negb _); [discriminate|]); injection H as H; exact (sniff_known _ _ H). }
  split; [exact Hknown|].
  unfold KNOWN_TYPES in Hknown.
  repeat (apply elem_of_cons in Hknown as [->|Hknown]; [split; [discriminate|reflexivity]|]).
  now apply elem_of_nil in Hknown.
Qed.

Lemma fileTypeFromBuffer_answers_a_known_type_witness :
  fileTypeFromBuffer (Uint8Array webp_bytes) = Return (Some webp) /\
  webp ∈ KNOWN_TYPES /\ ext webp <> EmptyString /\ String.prefix "image/" (mime webp) = true.
Proof.
  split; [reflexivity|].
  apply (fileTypeFromBuffer_answers_a_known_type (Uint8Array webp_bytes) webp). reflexivity.
Defined.

(** X8. The rules are tried in order and the first that matches decides:
    a buffer that starts with the signature of JPEG or of GIF has that
    type whatever follows, and a buffer with [WEBP] at offset 8 has the
    type [webp] when it starts with [RIFF]. *)
Theorem first_matching_signature_decides (size : list byte) (rest : list byte) :
  length size = 4 ->
  fileTypeFromBuffer (Uint8Array ([xff; xd8; xff] ++ rest))
  = Return (Some (mkFileType "jpg" "image/jpeg")) /\
  fileTypeFromBuffer (Uint8Array (stringToBytes "GIF" ++ rest))
  = Return (Some (mkFileType "gif" "image/gif")) /\
  fileTypeFromBuffer (Uint8Array (stringToBytes "RIFF" ++ size ++ stringToBytes "WEBP" ++ rest))
  = Return (Some webp).
Proof.
  intros Hsize. split; [reflexivity|]. split; [reflexivity|].
  destruct size as [|b1 [|b2 [|b3 [|b4 [|b5 size]]]]]; try discriminate Hsize.
  reflexivity.
Qed.

Lemma first_matching_signature_decides_witness :
  length [x24; x00; x00; x00] = 4 /\
  fileTypeFromBuffer
    (Uint8Array (stringToBytes "RIFF" ++ [x24; x00; x00; x00] ++ stringToBytes "WEBP" ++ []))
  = Return (Some webp).
Proof.
  split; [reflexivity|].
  apply (first_matching_signature_decides [x24; x00; x00; x00] []). reflexivity.
Defined.


(** ** [throttleAll] *)

Section ThrottleMore.
Context {T E : Type}.
Implicit Types (tasks : list (Outcome T E)) (st : Scheduler T E).

Lemma started_app (h1 h2 : list Event) : started (h1 ++ h2) = started h1 ++ started h2.
Proof. unfold started. apply omap_app. Qed.

Lemma started_Started (l : list nat) : started (Started <$> l) = l.
Proof.
  induction l as [|x l IH]; [reflexivity|].
  change (started (Started <$> x :: l)) with (x :: started (Started <$> l)).
  now rewrite IH.
Qed.

Lemma failures_none (tasks : list (Outcome T E)) (h : list Event) :
  failures h = 0 -> first_failure tasks h = None.
Proof.
  induction h as [|[i|i|i] h IH]; simpl; try exact IH; [reflexivity|discriminate].
Qed.


(** X11. The executor starts the first [min limit n] tasks, in input
    order, and nothing else happens before the first task settles; with no
    task at all the promise is resolved at once. *)
Theorem throttleAll_starts_the_first_tasks (limit : Z) tasks :
  (1 <= limit)%Z ->
  throttleAll (IntegerNumber limit) tasks =
  Return (mkScheduler (Nat.min (Z.to_nat limit) (length tasks)) [] 0
            (if (length tasks =? 0)%nat then Resolved else Pending)
            (seq 0 (Nat.min (Z.to_nat limit) (length tasks)))
            (Started <$> seq 0 (Nat.min (Z.to_nat limit) (length tasks)))).
Proof.
  intros Hlimit. unfold throttleAll. destruct (Z.ltb_spec limit 1); [lia|].
  rewrite executor_calls. destruct (Nat.ltb_spec 0 (Z.to_nat limit)); [|lia].
  reflexivity.
Qed.

(** X12. The promise is resolved exactly when every task has fulfilled;
    then no task is in flight and the slot of each task holds its value. *)
Theorem throttleAll_resolved_when_all_fulfilled (limit : Z) tasks st :
  reachable limit tasks st ->
  (promise st = Resolved <-> tasksFulfilled st = length tasks) /\
  (promise st = Resolved ->
   inflight st = [] /\ entries st = length tasks /\ length (result st) <= length tasks /\
   forall i v, tasks !! i = Some (Fulfils v) -> result st !! i = Some (Some v)).
Proof.
  intros Hreach. apply reachable_invariant in Hreach as Inv.
  pose proof (inv_promise _ _ _ Inv) as Hpromise.
  pose proof (inv_count _ _ _ Inv) as Hcount.
  pose proof (inv_entries _ _ _ Inv) as Hentries.
  assert (tasksFulfilled st = length tasks -> first_failure tasks (history st) = None)
    as Hnone by (intros Hall; apply failures_none; lia).
  assert (promise st = Resolved <-> tasksFulfilled st = length tasks) as Hiff.
  { split.
    - intros Hres. rewrite Hres in Hpromise.
      destruct (first_failure tasks (history st)); [discriminate|].
      destruct (Nat.eqb_spec (tasksFulfilled st) (length tasks)); [assumption|discriminate].
    - intros Hall. rewrite Hpromise, (Hnone Hall).
      now destruct (Nat.eqb_spec (tasksFulfilled st) (length tasks)). }
  split; [exact Hiff|]. intros Hres. apply Hiff in Hres.
  assert (inflight st = []) as Hnil by (apply length_zero_iff_nil; lia).
  split; [exact Hnil|]. split; [lia|].
  pose proof (inv_length _ _ _ Inv). split; [lia|].
  intros i v Hi. apply (inv_result _ _ _ Inv); [|rewrite Hnil; apply not_elem_of_nil|exact Hi].
  apply lookup_lt_Some in Hi. rewrite Hnil in Hcount. simpl in Hcount. lia.
Qed.

Lemma started_settle tasks i st st' :
  settle tasks i st = Some st' ->
  started (history st) = seq 0 (entries st) ->
  started (history st') = seq 0 (entries st').
Proof.
  intros Hs Hst. apply settle_inv in Hs as (_ & [(v & _ & ->)|(e & _ & ->)]).
  - unfold onFulfilled, next. cbn [entries tasksFulfilled result promise inflight history].
    destruct (tasks !! entries st).
    + cbn [entries history]. rewrite !started_app, Hst, seq_S. simpl.
      now rewrite app_nil_r.
    + match goal with |- context [resolve ?s] =>
        destruct (resolve_fields s) as (E1 & _ & _ & _ & E5 & _) end.
      destruct (_ =? _)%nat; rewrite ?E1, ?E5; cbn [entries history];
        rewrite started_app, Hst; simpl; now rewrite app_nil_r.
  - match goal with |- context [reject e ?s] =>
      destruct (reject_fields e s) as (E1 & _ & _ & _ & E5 & _) end.
    rewrite E1, E5. cbn [entries history]. rewrite started_app, Hst. simpl.
    now rewrite app_nil_r.
Qed.

Lemma started_run tasks schedule st st' :
  run tasks schedule st = Some st' ->
  started (history st) = seq 0 (entries st) ->
  started (history st') = seq 0 (entries st').
Proof.
  revert st. induction schedule as [|i rest IH]; intros st; simpl.
  - now intros [= <-].
  - destruct (settle tasks i st) as [st1|] eqn:Hs; [|discriminate].
    intros Hrun Hst. apply (IH _ Hrun). exact (started_settle _ _ _ _ Hs Hst).
Qed.

(** X13. The tasks are started in input order, each at most once: the
    tasks started so far are the first [entries] ones, in this order. *)
Theorem throttleAll_starts_in_input_order (limit : Z) tasks st :
  reachable limit tasks st -> started (history st) = seq 0 (entries st).
Proof.
  intros (st0 & schedule & Hstart & Hrun). unfold throttleAll in Hstart.
  destruct (Z.ltb_spec limit 1); [discriminate|]. injection Hstart as <-.
  apply (started_run _ _ _ _ Hrun). rewrite executor_calls.
  cbn [entries history]. apply started_Started.
Qed.

(** X14. A task in flight that fulfils makes the next queued task start,
    whatever the state of the promise: after the promise has been
    rejected, the tasks left are still started. *)
Theorem throttleAll_keeps_starting_tasks tasks st (i : nat) (v : T) :
  i ∈ inflight st -> tasks !! i = Some (Fulfils v) -> entries st < length tasks ->
  exists st',
    settle tasks i st = Some st' /\
    entries st' = S (entries st) /\
    inflight st' = filter (λ j, j ≠ i) (inflight st) ++ [entries st] /\
    history st' = history st ++ [Fulfilled i; Started (entries st)] /\
    promise st' = promise st.
Proof.
  intros Hi Hv Hleft. unfold settle. rewrite bool_decide_eq_true_2 by exact Hi.
  rewrite Hv. eexists. split; [reflexivity|].
  unfold onFulfilled, next. cbn [entries tasksFulfilled result promise inflight history].
  destruct (lookup_lt_is_Some_2 tasks (entries st) Hleft) as [o ->].
  cbn [entries tasksFulfilled result promise inflight history].
  rewrite <- app_assoc. now repeat split.
Qed.
End ThrottleMore.

Lemma throttleAll_starts_the_first_tasks_witness :
  (1 <= 2)%Z /\
  throttleAll (IntegerNumber 2) second_fails =
  Return (mkScheduler 2 [] 0 Pending [0; 1] [Started 0; Started 1]).
Proof.
  split; [lia|]. apply (throttleAll_starts_the_first_tasks 2 second_fails). lia.
Defined.

Lemma throttleAll_resolved_when_all_fulfilled_witness :
  exists st : Scheduler nat string,
    reachable 2 (Fulfils <$> [10; 20; 30]) st /\
    promise st = Resolved /\ inflight st = [] /\ result st = [Some 10; Some 20; Some 30].
Proof.
  pose proof (after_reachable 2 (Fulfils <$> [10; 20; 30] : list (Outcome nat string))
                [1; 0; 2] _ eq_refl) as Hreach.
  eexists. split; [exact Hreach|].
  destruct (throttleAll_resolved_when_all_fulfilled 2 _ _ Hreach) as [Hiff Hall].
  assert (promise (mkScheduler (E := string) 3 [Some 10; Some 20; Some 30] 3 Resolved []
                     [Started 0; Started 1; Fulfilled 1; Started 2; Fulfilled 0; Fulfilled 2])
          = Resolved) as Hres by (apply Hiff; reflexivity).
  split; [exact Hres|]. split; [exact (proj1 (Hall Hres))|]. reflexivity.
Defined.

Lemma throttleAll_starts_in_input_order_witness :
  reachable 2 second_fails
    (mkScheduler 2 [] 0 (Rejected "boom") [0] [Started 0; Started 1; Failed 1]) /\
  started [Started 0; Started 1; Failed 1] = seq 0 2.
Proof.
  pose proof (after_reachable 2 second_fails [1] _ eq_refl) as Hreach.
  split; [exact Hreach|]. exact (throttleAll_starts_in_input_order 2 second_fails _ Hreach).
Defined.

(** The batch of [first_fails] has been rejected when its second task
    fulfils; the third task is started all the same. *)
Lemma throttleAll_keeps_starting_tasks_witness :
  reachable 2 first_fails
    (mkScheduler 2 [] 0 (Rejected "boom") [1] [Started 0; Started 1; Failed 0]) /\
  exists st' : Scheduler nat string,
    settle first_fails 1
      (mkScheduler 2 [] 0 (Rejected "boom") [1] [Started 0; Started 1; Failed 0])
    = Some st' /\
    inflight st' = [2] /\ promise st' = Rejected "boom".
Proof.
  pose proof (after_reachable 2 first_fails [0] _ eq_refl) as Hreach.
  split; [exact Hreach|].
  destruct (throttleAll_keeps_starting_tasks first_fails
              (mkScheduler 2 [] 0 (Rejected "boom") [1] [Started 0; Started 1; Failed 0]) 1 20)
    as (st' & Hsettle & _ & Hinflight & _ & Hpromise).
  - apply list_elem_of_singleton. reflexivity.
  - reflexivity.
  - simpl. lia.
  - exists st'. split; [exact Hsettle|]. split; [exact Hinflight | exact Hpromise].
Defined.

(** ** [memoize] *)

Section MemoizeFacts.
Context {Env T : Type}.
Implicit Types (f : Env -> Completion T * Env) (m : Memoize.Memo (Env := Env) (T := T)).

Lemma calls_cached (n : nat) (v : option T) (fn : option (Env -> Completion T * Env))
    (s : Env) :
  Memoize.calls n (Memoize.mkMemo true v fn) s
  = (replicate n (Return v), Memoize.mkMemo true v fn, s).
Proof.
  induction n as [|n IH]; [reflexivity|].
  cbn [Memoize.calls Memoize.memoized Memoize.cache Memoize.result]. now rewrite IH.
Qed.

Lemma calls_first_run f (s s1 : Env) (v : T) (n : nat) :
  f s = (Return v, s1) ->
  Memoize.calls (S n) (Memoize.memoize (Some f)) s =
  (replicate (S n) (Return (Some v)), Memoize.mkMemo true (Some v) None, s1).
Proof.
  intros Hf.
  cbn [Memoize.calls Memoize.memoized Memoize.memoize Memoize.cache Memoize.fn].
  rewrite Hf. now rewrite calls_cached.
Qed.

(** X15. When [fn] returns, it runs once: the first call runs it, every
    call returns what that run returned, the environment is the one that
    run left, and the closure has let go of [fn]. *)
Theorem memoize_runs_fn_once f (s s1 : Env) (v : T) (n : nat) :
  f s = (Return v, s1) ->
  Memoize.calls (S n) (Memoize.memoize (Some f)) s =
  (replicate (S n) (Return (Some v)), Memoize.mkMemo true (Some v) None, s1).
Proof.
  exact (calls_first_run f s s1 v n).
Qed.

(** X16. A run of [fn] that throws is not remembered: the call throws
    what [fn] threw and the next call runs [fn] again, in the environment
    the failed run left; with no [fn] at all every call throws. *)
Theorem memoize_retries_after_a_throw f (s s1 s2 : Env) (error : string) (v : T)
    (n : nat) :
  f s = (Throw error, s1) -> f s1 = (Return v, s2) ->
  Memoize.calls (S (S n)) (Memoize.memoize (Some f)) s =
  (Throw error :: replicate (S n) (Return (Some v)),
   Memoize.mkMemo true (Some v) None, s2) /\
  Memoize.calls (S n) (Memoize.memoize (T := T) None) s =
  (replicate (S n) (Throw "TypeError: fn is not a function"), Memoize.memoize None, s).
Proof.
  intros Hthrow Hreturn. split.
  - change (Memoize.calls (S (S n)) (Memoize.memoize (Some f)) s)
      with (match Memoize.memoized (Memoize.memoize (Some f)) s with
            | (answer, m', s') =>
                match Memoize.calls (S n) m' s' with
                | (answers, m'', s'') => (answer :: answers, m'', s'')
                end
            end).
    cbn [Memoize.memoized Memoize.memoize Memoize.cache Memoize.fn]. rewrite Hthrow.
    change (Memoize.mkMemo false None (Some f)) with (Memoize.memoize (Some f)).
    now rewrite (calls_first_run f s1 s2 v n Hreturn).
  - induction n as [|n IH]; [reflexivity|].
    change (Memoize.calls (S (S n)) (Memoize.memoize None) s)
      with (match Memoize.memoized (Memoize.memoize (T := T) None) s with
            | (answer, m', s') =>
                match Memoize.calls (S n) m' s' with
                | (answers, m'', s'') => (answer :: answers, m'', s'')
                end
            end).
    cbn [Memoize.memoized Memoize.memoize Memoize.cache Memoize.fn].
    change (Memoize.mkMemo false None None) with (Memoize.memoize (Env := Env) (T := T) None).
    now rewrite IH.
Qed.
End MemoizeFacts.

(** [flaky] has run once before: the three calls return what its second
    run returns, and it has run twice in all. *)
Lemma memoize_runs_fn_once_witness :
  flaky 1 = (Return 1, 2) /\
  Memoize.calls 3 (Memoize.memoize (Some flaky)) 1 =
  ([Return (Some 1); Return (Some 1); Return (Some 1)],
   Memoize.mkMemo true (Some 1) None, 2).
Proof. split; [reflexivity|]. apply (memoize_runs_fn_once flaky 1 2 1 2). reflexivity. Defined.

Lemma memoize_retries_after_a_throw_witness :
  flaky 0 = (Throw "not yet", 1) /\ flaky 1 = (Return 1, 2) /\
  Memoize.calls 3 (Memoize.memoize (Some flaky)) 0 =
  ([Throw "not yet"; Return (Some 1); Return (Some 1)],
   Memoize.mkMemo true (Some 1) None, 2).
Proof.
  split; [reflexivity|]. split; [reflexivity|].
  exact (proj1 (memoize_retries_after_a_throw flaky 0 1 2 "not yet" 1 1 eq_refl eq_refl)).
Defined.

(** ** [imageminNormalizeConfig] *)

Lemma load_plugins_spec (lib : ImageminLib) (specs : list PluginSpec)
    (loaded : list (Plugin lib)) :
  load_plugins lib specs = Return loaded <->
  Forall2 (fun spec plugin => resolve_plugin lib spec = Some plugin) specs loaded.
Proof.
  revert loaded. induction specs as [|spec specs IH]; intros loaded.
  - simpl. split.
    + intros [= <-]. constructor.
    + intros H. apply Forall2_nil_inv_l in H as ->. reflexivity.
  - assert (forall (required : option (Plugin lib)) name,
              match required with
              | None => Throw (unknown_plugin name)
              | Some requiredPlugin =>
                  match load_plugins lib specs with
                  | Throw error => Throw error
                  | Return rest => Return (requiredPlugin :: rest)
                  end
              end = Return loaded <->
              exists plugin rest, required = Some plugin /\ loaded = plugin :: rest /\
                                  load_plugins lib specs = Return rest) as Hstep.
    { intros [plugin|] name.
      - destruct (load_plugins lib specs) as [error|rest].
        + split; [discriminate|]. now intros (p & r & _ & _ & H).
        + split.
          * intros [= <-]. now exists plugin, rest.
          * intros (p & r & [= <-] & -> & [= <-]). reflexivity.
      - split; [discriminate|]. now intros (p & r & H & _). }
    destruct spec as [name|name options|json].
    + cbn [load_plugins resolve_plugin]. rewrite Hstep. split.
      * intros (plugin & rest & Hp & -> & Hrest). constructor; [exact Hp|].
        now apply IH.
      * intros H. apply Forall2_cons_inv_l in H as (plugin & rest & Hp & Hrest & ->).
        exists plugin, rest. split; [exact Hp|]. split; [reflexivity|]. now apply IH.
    + cbn [load_plugins resolve_plugin]. rewrite Hstep. split.
      * intros (plugin & rest & Hp & -> & Hrest). constructor; [exact Hp|].
        now apply IH.
      * intros H. apply Forall2_cons_inv_l in H as (plugin & rest & Hp & Hrest & ->).
        exists plugin, rest. split; [exact Hp|]. split; [reflexivity|]. now apply IH.
    + cbn [load_plugins]. split; [discriminate|].
      intros H. apply Forall2_cons_inv_l in H as (plugin & rest & Hp & _). discriminate Hp.
Qed.

(** X17. [imageminNormalizeConfig] returns exactly when the configuration
    has a list of plugins that is not empty and every entry of it is a
    name or a pair whose package loads, with the [imagemin-] prefix or
    without; the plugins come in the order of the entries. *)
Theorem imageminNormalizeConfig_loads_every_plugin (lib : ImageminLib)
    (config : option ImageminOptions) (loaded : list (Plugin lib)) :
  imageminNormalizeConfig lib config = Return loaded <->
  exists specs,
    config = Some (mkImageminOptions (Some specs)) /\ specs <> [] /\
    Forall2 (fun spec plugin => resolve_plugin lib spec = Some plugin) specs loaded.
Proof.
  unfold imageminNormalizeConfig. destruct config as [[[[|spec specs]|]]|].
  - split; [discriminate|]. intros (specs & [= <-] & Hne & _). contradiction.
  - rewrite load_plugins_spec. split.
    + intros H. now exists (spec :: specs).
    + now intros (specs' & [= <-] & _ & H).
  - split; [discriminate|]. now intros (specs & H & _).
  - split; [discriminate|]. now intros (specs & H & _).
Qed.

(** ** imagemin *)

(** X18. When [imagemin.buffer] throws, [imageminMinify] and
    [imageminGenerate] return [null] and push one error that names the
    file and carries the message; the warnings stay as they are. *)
Theorem imagemin_failure_is_reported (host : Host) (lib : ImageminLib)
    (original : WorkerResult) (options : option ImageminOptions) (w : World)
    (loaded : list (Plugin lib)) (message : string) (es : list string) :
  imageminNormalizeConfig lib (Some (default (mkImageminOptions None) options))
    = Return loaded ->
  imagemin_buffer lib (data original) loaded = inl message ->
  arrays w !! errors original = Some es ->
  imageminMinify host lib original options w =
  (Return None,
   mkWorld (<[errors original := es ++ [error_with original message]]> (arrays w))
           (pool w) (open_pools w)) /\
  imageminGenerate host lib original options w =
  (Return None,
   mkWorld (<[errors original := es ++ [error_with original message]]> (arrays w))
           (pool w) (open_pools w)).
Proof.
  intros Hconfig Hbuffer Hes. unfold imageminMinify, imageminGenerate.
  rewrite Hconfig. cbn [bind lift ret call]. rewrite Hbuffer.
  split; now apply push_then_None.
Qed.

Lemma imagemin_failure_is_reported_witness :
  imagemin_buffer failing_imagemin (data (item "a.png" ∅)) [tt] = inl "corrupt input" /\
  imageminMinify posix_host failing_imagemin (item "a.png" ∅) webp_plugin_options fresh_world
  = (Return None, mkWorld [[]; ["Error with 'a.png': corrupt input"]] false 0).
Proof.
  split; [reflexivity|].
  exact (proj1 (imagemin_failure_is_reported posix_host failing_imagemin (item "a.png" ∅)
                  webp_plugin_options fresh_world [tt] "corrupt input" []
                  eq_refl eq_refl eq_refl)).
Defined.

(** X19. When [imagemin.buffer] returns, [imageminGenerate] returns a new
    item with the bytes it got: under the filename of the original with
    the extension replaced when the bytes sniff to an extension other than
    that of the filename, under the filename of the original otherwise. *)
Theorem imageminGenerate_renames_to_the_sniffed_extension (host : Host)
    (lib : ImageminLib) (original : WorkerResult) (options : option ImageminOptions)
    (w : World) (loaded : list (Plugin lib)) (result : list byte)
    (ws es old : list string) :
  imageminNormalizeConfig lib (Some (default (mkImageminOptions None) options))
    = Return loaded ->
  imagemin_buffer lib (data original) loaded = inr result ->
  arrays w !! warnings original = Some ws ->
  arrays w !! errors original = Some es ->
  processedBy_of (info original) "generatedBy" = Return old ->
  exists item,
    imageminGenerate host lib original options w =
    (Return (Some item), mkWorld (arrays w ++ [ws; es]) (pool w) (open_pools w)) /\
    data item = result /\
    filename item =
    match fileTypeFromBuffer (Uint8Array result) with
    | Return (Some t) =>
        if String.eqb (input_ext host original) (ext t) then filename original
        else replaceFileExtension (filename original) (ext t)
    | _ => filename original
    end.
Proof.
  intros Hconfig Hbuffer Hws Hes Hold. unfold imageminGenerate.
  rewrite Hconfig. cbn [bind lift ret call]. rewrite Hbuffer.
  assert (exists answer, fileTypeFromBuffer (Uint8Array result) = Return answer)
    as [answer Hanswer].
  { unfold fileTypeFromBuffer. destruct (negb _); eexists; reflexivity. }
  unfold sniffed_ext. rewrite Hanswer. cbn [bind lift ret call].
  eexists. split; [|split].
  - exact (build_item_run original _ _ "generatedBy"
             (fun by_ => <["generatedBy" := VStrings ("imagemin" :: by_)]>
                           (<["generated" := VBool true]> (info original)))
             w ws es old Hws Hes Hold).
  - reflexivity.
  - cbn [filename]. destruct answer as [t|]; [|reflexivity].
    cbn [fmap option_fmap option_map ext_differs default].
    pose proof (fileTypeFromBuffer_ext_nonempty _ _ Hanswer) as Hne.
    destruct (String.eqb_spec (ext t) EmptyString); [contradiction|].
    now destruct (String.eqb (input_ext host original) (ext t)).
Qed.

Lemma imageminGenerate_renames_to_the_sniffed_extension_witness :
  imagemin_buffer webp_imagemin (data (item "a/b.png" ∅)) [tt] = inr webp_bytes /\
  exists result,
    imageminGenerate posix_host webp_imagemin (item "a/b.png" ∅) webp_plugin_options
      fresh_world
    = (Return (Some result), mkWorld [[]; []; []; []] false 0) /\
    data result = webp_bytes /\ filename result = "a/b.webp".
Proof.
  split; [reflexivity|].
  assert (processedBy_of (info (item "a/b.png" ∅)) "generatedBy" = Return []) as Hold
    by (vm_compute; reflexivity).
  destruct (imageminGenerate_renames_to_the_sniffed_extension posix_host webp_imagemin
              (item "a/b.png" ∅) webp_plugin_options fresh_world [tt] webp_bytes [] [] []
              eq_refl eq_refl eq_refl eq_refl Hold) as (result & Hrun & Hdata & Hname).
  exists result. split; [exact Hrun|]. split; [exact Hdata | exact Hname].
Defined.

(** ** svgo *)

(** X20. [svgoMinify] looks at nothing but the extension: a file that is
    not [.svg] is skipped, with [null] and no change at all; for a [.svg]
    file, what [optimize] throws becomes one error and [null], and what it
    returns becomes the data of a new item under the same filename. *)
Theorem svgoMinify_by_cases (host : Host) (lib : SvgoLib) (original : WorkerResult)
    (options : option SvgoOptions) (w : World) :
  (toLowerCase host (path_extname host (filename original)) <> ".svg" ->
   svgoMinify host lib original options w = (Return None, w)) /\
  (toLowerCase host (path_extname host (filename original)) = ".svg" ->
   (forall message es,
      optimize lib (data original) (filename original)
        (svgo_encodeOptions (default (mkSvgoOptions None) options)) = inl message ->
      arrays w !! errors original = Some es ->
      svgoMinify host lib original options w =
      (Return None,
       mkWorld (<[errors original := es ++ [error_with original message]]> (arrays w))
               (pool w) (open_pools w))) /\
   (forall result ws es old,
      optimize lib (data original) (filename original)
        (svgo_encodeOptions (default (mkSvgoOptions None) options)) = inr result ->
      arrays w !! warnings original = Some ws ->
      arrays w !! errors original = Some es ->
      processedBy_of (info original) "minimizedBy" = Return old ->
      svgoMinify host lib original options w =
      (Return (Some (mkWorkerResult (filename original) result
                       (length (arrays w)) (S (length (arrays w)))
                       (<["minimizedBy" := VStrings ("svgo" :: old)]>
                          (<["minimized" := VBool true]> (info original))))),
       mkWorld (arrays w ++ [ws; es]) (pool w) (open_pools w)))).
Proof.
  unfold svgoMinify. split.
  - intros Hext. now destruct (String.eqb_spec
      (toLowerCase host (path_extname host (filename original))) ".svg").
  - intros ->. cbn [String.eqb Ascii.eqb Bool.eqb negb andb]. split.
    + intros message es -> Hes. now apply push_then_None.
    + intros result ws es old -> Hws Hes Hold.
      exact (build_item_run original _ _ "minimizedBy"
               (fun by_ => <["minimizedBy" := VStrings ("svgo" :: by_)]>
                             (<["minimized" := VBool true]> (info original)))
               w ws es old Hws Hes Hold).
Qed.

Lemma svgoMinify_by_cases_witness :
  svgoMinify posix_host failing_svgo (item "a.png" ∅) None fresh_world
  = (Return None, fresh_world) /\
  svgoMinify posix_host failing_svgo (item "a.SVG" ∅) None fresh_world
  = (Return None, mkWorld [[]; ["Error with 'a.SVG': not well-formed"]] false 0).
Proof.
  destruct (svgoMinify_by_cases posix_host failing_svgo (item "a.png" ∅) None fresh_world)
    as [Hskip _].
  destruct (svgoMinify_by_cases posix_host failing_svgo (item "a.SVG" ∅) None fresh_world)
    as [_ Hsvg].
  split.
  - apply Hskip. vm_compute. discriminate.
  - exact (proj1 (Hsvg eq_refl) "not well-formed" [] eq_refl eq_refl).
Defined.

(** ** squoosh *)

(** X21. From a state without the shared pool, [squooshImagePoolSetup]
    creates one pool and a second call creates none; the teardown closes
    it, a second teardown does nothing more, and the arrays are not
    touched. *)
Theorem squoosh_pool_setup_and_teardown (w : World) :
  pool w = false ->
  let w1 := mkWorld (arrays w) true (S (open_pools w)) in
  let w2 := mkWorld (arrays w) false (open_pools w) in
  squooshImagePoolSetup w = (Return tt, w1) /\
  squooshImagePoolSetup w1 = (Return tt, w1) /\
  squooshImagePoolTeardown w1 = (Return tt, w2) /\
  squooshImagePoolTeardown w2 = (Return tt, w2).
Proof.
  intros Hpool. unfold squooshImagePoolSetup, squooshImagePoolTeardown.
  cbv [bind get_pool set_pool squooshImagePoolCreate imagePool_close ret].
  cbn [pool arrays open_pools negb pred]. now rewrite Hpool.
Qed.

Lemma squoosh_pool_setup_and_teardown_witness :
  pool fresh_world = false /\
  squooshImagePoolSetup fresh_world = (Return tt, mkWorld [[]; []] true 1) /\
  squooshImagePoolTeardown (mkWorld [[]; []] true 1) = (Return tt, fresh_world).
Proof.
  split; [reflexivity|].
  destruct (squoosh_pool_setup_and_teardown fresh_world eq_refl) as (H1 & _ & H2 & _).
  split; [exact H1 | exact H2].
Defined.

Lemma keeps_pools_ret {A} (a : A) : keeps_pools (ret a).
Proof. intros w b w'. unfold ret. now intros [= _ ->]. Qed.

Lemma keeps_pools_throw {A} (error : string) : keeps_pools (@throw A error).
Proof. intros w b w'. unfold throw. discriminate. Qed.

Lemma keeps_pools_call {A} (r : string + A) : keeps_pools (call r).
Proof. intros w a w' H. now apply call_Return in H as [_ ->]. Qed.

Lemma keeps_pools_lift {A} (c : Completion A) : keeps_pools (lift c).
Proof. intros w a w' H. now apply lift_Return in H as [_ ->]. Qed.

Lemma keeps_pools_push (array : nat) (x : string) : keeps_pools (push array x).
Proof.
  intros w a w'. unfold push. destruct (arrays w !! array); [|discriminate].
  now intros [= _ <-].
Qed.

Lemma keeps_pools_spread_copy (array : nat) : keeps_pools (spread_copy array).
Proof.
  intros w a w' H. now apply spread_copy_Return in H as (x & _ & _ & ->).
Qed.

Lemma keeps_pools_bind {A B} (m : M A) (k : A -> M B) :
  keeps_pools m -> (forall a, keeps_pools (k a)) -> keeps_pools (bind m k).
Proof.
  intros Hm Hk w b w' H. apply bind_Return in H as (a & w1 & H1 & H2).
  destruct (Hk _ _ _ _ H2) as [-> ->]. exact (Hm _ _ _ H1).
Qed.

(** The start of [squooshGenerate] and [squooshMinify]: the pool is the
    shared one, or one made for the call. *)
Lemma pool_for_the_call (w : World) (isReusePool : bool) (u : unit) (w1 w2 : World) :
  get_pool w = (Return isReusePool, w1) ->
  (if isReusePool then ret tt else squooshImagePoolCreate) w1 = (Return u, w2) ->
  isReusePool = pool w /\ pool w2 = pool w /\ arrays w2 = arrays w /\
  open_pools w2 = if pool w then open_pools w else S (open_pools w).
Proof.
  unfold get_pool. intros [= <- <-].
  destruct (pool w) eqn:Hpool; unfold ret, squooshImagePoolCreate; intros [= <- <-];
    cbn [pool arrays open_pools]; now rewrite ?Hpool.
Qed.

(** The call is over: a pool made for it is closed. *)
Lemma pool_of_the_call_closed {A} (w w2 w3 : World) (u : unit) (rest : M A)
    (r : A) (w' : World) :
  pool w2 = pool w ->
  open_pools w2 = (if pool w then open_pools w else S (open_pools w)) ->
  (if negb (pool w) then imagePool_close else ret tt) w2 = (Return u, w3) ->
  keeps_pools rest -> rest w3 = (Return r, w') ->
  pool w' = pool w /\ open_pools w' = open_pools w.
Proof.
  intros Hpool Hopen Hclose Hrest Hrun. destruct (Hrest _ _ _ Hrun) as [-> ->].
  destruct (pool w); cbn [negb] in Hclose; unfold ret, imagePool_close in Hclose;
    injection Hclose as _ <-; cbn [pool open_pools]; rewrite ?Hopen; now split.
Qed.

(** X22. When [squooshGenerate] or [squooshMinify] returns, with an item
    or with [null], the pool it has made for the call is closed: the
    shared pool and the count of open pools are what they were. *)
Theorem squoosh_closes_the_pool_of_the_call (host : Host) (lib : SquooshLib)
    (original : WorkerResult) (options : option SquooshOptions) (w : World)
    (r : option WorkerResult) (w' : World) :
  squooshGenerate lib original options w = (Return r, w') \/
  squooshMinify host lib original options w = (Return r, w') ->
  pool w' = pool w /\ open_pools w' = open_pools w.
Proof.
  intros [H|H].
  - unfold squooshGenerate in H.
    apply bind_Return in H as (isReusePool & w1 & H1 & H).
    apply bind_Return in H as (u & w2 & H2 & H).
    destruct (pool_for_the_call _ _ _ _ _ H1 H2) as (-> & Hpool & _ & Hopen).
    apply bind_Return in H as (image & w3 & H3 & H).
    assert (w3 = w2) as ->.
    { destruct (0 <? _)%nat; [now apply call_Return in H3 as [_ ->]|].
      unfold ret in H3. now injection H3 as _ <-. }
    destruct (encode lib image _) as [message|image'];
      apply bind_Return in H as (u' & w4 & H4 & H);
      (eapply (pool_of_the_call_closed _ _ _ _ _ _ _ Hpool Hopen H4); [ | exact H]);
      repeat first
        [ apply keeps_pools_ret | apply keeps_pools_throw | apply keeps_pools_call
        | apply keeps_pools_lift | apply keeps_pools_push | apply keeps_pools_spread_copy
        | apply keeps_pools_bind; [|intros ?]
        | match goal with
          | |- keeps_pools (if ?b then _ else _) => destruct b
          | |- keeps_pools (match ?x with _ => _ end) => destruct x
          end ].
  - unfold squooshMinify in H.
    destruct (squoosh_targets host lib !! _) as [targetCodec|];
      [|unfold ret in H; now injection H as _ <-].
    destruct (String.eqb targetCodec _); [unfold ret in H; now injection H as _ <-|].
    apply bind_Return in H as (isReusePool & w1 & H1 & H).
    apply bind_Return in H as (u & w2 & H2 & H).
    destruct (pool_for_the_call _ _ _ _ _ H1 H2) as (-> & Hpool & _ & Hopen).
    apply bind_Return in H as (image & w3 & H3 & H).
    assert (w3 = w2) as ->.
    { destruct (0 <? _)%nat; [now apply call_Return in H3 as [_ ->]|].
      unfold ret in H3. now injection H3 as _ <-. }
    destruct (encode lib image _) as [message|image'];
      apply bind_Return in H as (u' & w4 & H4 & H);
      (eapply (pool_of_the_call_closed _ _ _ _ _ _ _ Hpool Hopen H4); [ | exact H]);
      repeat first
        [ apply keeps_pools_ret | apply keeps_pools_throw | apply keeps_pools_call
        | apply keeps_pools_lift | apply keeps_pools_push | apply keeps_pools_spread_copy
        | apply keeps_pools_bind; [|intros ?]
        | match goal with
          | |- keeps_pools (if ?b then _ else _) => destruct b
          | |- keeps_pools (match ?x with _ => _ end) => destruct x
          end ].
Qed.

Lemma squoosh_closes_the_pool_of_the_call_witness :
  exists (r : option WorkerResult) (w' : World),
    squooshMinify posix_host webp_squoosh (item "a.webp" ∅) None fresh_world = (Return r, w') /\
    pool w' = false /\ open_pools w' = 0.
Proof.
  eexists _, _. split; [vm_compute; reflexivity|].
  eapply (squoosh_closes_the_pool_of_the_call posix_host webp_squoosh (item "a.webp" ∅) None
            fresh_world).
  right. vm_compute. reflexivity.
Defined.




(** ** sharp *)



(** X25. A dimension of a resize in percent is the percentage of the
    size of the original, rounded up; a missing dimension stays missing,
    and the number is taken as it is when the original has no size. *)
Theorem scale_rounds_the_percentage_up (percent size : Z) :
  scale None (Some size) = None /\
  scale (Some percent) None = Some percent /\
  ((size <= 0)%Z -> scale (Some percent) (Some size) = Some percent) /\
  ((0 < size)%Z ->
   exists pixels,
     scale (Some percent) (Some size) = Some pixels /\
     (100 * (pixels - 1) < size * percent <= 100 * pixels)%Z).
Proof.
  unfold scale, ceil_percent. split; [reflexivity|]. split; [reflexivity|]. split.
  - intros Hsize. now destruct (Z.ltb_spec 0 size); [lia|].
  - intros Hsize. destruct (Z.ltb_spec 0 size); [|lia]. eexists. split; [reflexivity|].
    pose proof (Z.div_mod (- (size * percent)) 100 ltac:(lia)) as Hdiv.
    pose proof (Z.mod_pos_bound (- (size * percent)) 100 ltac:(lia)) as Hmod.
    lia.
Qed.

Lemma scale_rounds_the_percentage_up_witness :
  (0 < 3)%Z /\ scale (Some 50%Z) (Some 3%Z) = Some 2%Z.
Proof.
  split; [lia|].
  destruct (proj2 (proj2 (proj2 (scale_rounds_the_percentage_up 50 3))) ltac:(lia))
    as (pixels & Hscale & Hbounds).
  rewrite Hscale. f_equal. lia.
Defined.

(** X26. [sharpGenerate] reads the formats [sharpMinify] reads, and SVG
    besides. *)
Theorem sharp_generate_reads_svg_besides (e : string) :
  has SHARP_GENERATE_FORMATS e = has SHARP_MINIFY_FORMATS e || String.eqb "svg" e.
Proof.
  unfold has.
  change SHARP_GENERATE_FORMATS with (SHARP_MINIFY_FORMATS ++ [("svg", "svg")]).
  rewrite existsb_app. cbn [existsb fst]. now rewrite orb_false_r.
Qed.
